(** * Space Invaders (space-invaders.ts): a shallow embedding and its properties

    The program is a single TypeScript class, [SpaceInvaders], driven by two
    callbacks of the host event loop: a keypress handler and a 250 ms
    interval.  Numbers that the program manipulates are integers (they start
    as integer literals and only change by +1 / -1), so they are modelled as
    [Z]; the two infinities produced by [Math.min()] / [Math.max()] on an
    empty argument list are kept explicit.  JavaScript strings are modelled
    by their UTF-8 bytes ([string]); [JS.length] recovers the JavaScript
    [length] (UTF-16 code units). *)

From stdpp Require Import base numbers option list strings gmap pretty.
From Stdlib Require Import Ascii.

Local Open Scope Z_scope.

(** ** The parts of the JavaScript runtime the program relies on *)

Module JS.

(** Results of [Math.min(...xs)] and [Math.max(...xs)] over integers. *)
Inductive num : Type :=
  | NegInfinity
  | Int (z : Z)
  | Infinity.

Definition min2 (a b : num) : num :=
  match a, b with
  | NegInfinity, _ | _, NegInfinity => NegInfinity
  | Infinity, c | c, Infinity => c
  | Int p, Int q => Int (Z.min p q)
  end.

Definition max2 (a b : num) : num :=
  match a, b with
  | Infinity, _ | _, Infinity => Infinity
  | NegInfinity, c | c, NegInfinity => c
  | Int p, Int q => Int (Z.max p q)
  end.

(** [Math.min()] is [Infinity] and [Math.max()] is [-Infinity]; the
    arguments are then folded in from left to right. *)
Definition Math_min (xs : list Z) : num := foldl (λ acc v, min2 acc (Int v)) Infinity xs.
Definition Math_max (xs : list Z) : num := foldl (λ acc v, max2 acc (Int v)) NegInfinity xs.

(** [a + d] for a finite [d]. *)
Definition add (a : num) (d : Z) : num :=
  match a with
  | Int p => Int (p + d)
  | other => other
  end.

(** [a >= k] and [a <= k] for a finite [k]. *)
Definition ge (a : num) (k : Z) : bool :=
  match a with
  | NegInfinity => false
  | Int p => bool_decide (k ≤ p)
  | Infinity => true
  end.

Definition le (a : num) (k : Z) : bool :=
  match a with
  | NegInfinity => true
  | Int p => bool_decide (p ≤ k)
  | Infinity => false
  end.

(** Template-literal conversion of an integer: [`${n}`]. *)
Definition toString (n : Z) : string := pretty n.

(** Number of UTF-16 code units of a string given by its UTF-8 bytes:
    continuation bytes (10xxxxxx) count for nothing, a lead byte of a
    four-byte sequence (>= 0xF0) for a surrogate pair, any other byte
    for one unit. *)
Definition units (c : ascii) : nat :=
  let n := nat_of_ascii c in
  if bool_decide (128 ≤ n < 192)%nat then 0%nat
  else if bool_decide (240 ≤ n)%nat then 2%nat
  else 1%nat.

Fixpoint length (s : string) : nat :=
  match s with
  | EmptyString => 0%nat
  | String c rest => (units c + length rest)%nat
  end.

(** An array: a list of slots, [None] being a hole (read as [undefined]). *)
Abbreviation array A := (list (option A)) (only parsing).

(** [a[i]]: [None] stands for [undefined]. *)
Definition get {A} (a : array A) (i : Z) : option A :=
  if bool_decide (0 ≤ i) then mjoin (a !! Z.to_nat i) else None.

(** [a[i] = v].  Inside the array the slot is replaced; past the end the
    array grows, the slots in between being holes; a negative [i] is an
    ordinary property key and leaves the elements and the length alone. *)
Definition set {A} (a : array A) (i : Z) (v : option A) : array A :=
  if bool_decide (i < 0) then a
  else if bool_decide (Z.to_nat i < List.length a)%nat then <[Z.to_nat i := v]> a
  else a ++ replicate (Z.to_nat i - List.length a) None ++ [v].

(** [Array(n).fill(v)]; a negative [n] is a RangeError ([None]). *)
Definition Array_fill {A} (n : Z) (v : A) : option (array A) :=
  if bool_decide (0 ≤ n) then Some (replicate (Z.to_nat n) (Some v)) else None.

(** [a.map(f)] for a callback that may throw; holes are skipped and kept. *)
Definition map {A B} (f : A → option B) (a : array A) : option (array B) :=
  mapM (λ slot, match slot with
                | Some v => Some <$> f v
                | None => Some None
                end) a.

(** [a.join("")] on an array of strings: holes and [undefined] print as
    the empty string. *)
Definition join (a : array string) : string :=
  String.concat "" (default "" <$> a).

End JS.

(** ** Constants and entities *)

Module BoardCharacter.
Definition BaseBoardBackground : string := " ".
Definition FullBoardBackground : string := "y".
Definition Player : string := "▲".
Definition Enemy : string := "■".
Definition Bullet : string := ".".
End BoardCharacter.

Inductive Direction : Type := Left | Right.

Global Instance Direction_eq_dec : EqDecision Direction.
Proof. solve_decision. Defined.

(** Objects with numeric [x] and [y] properties: the structural type
    [{ x: number; y: number }] of the source. *)
Class HasXY (A : Type) : Type := { getX : A → Z; getY : A → Z }.

Definition getCoordinate `{HasXY A} (o : A) : string :=
  "(" +:+ JS.toString (getX o) +:+ "," +:+ JS.toString (getY o) +:+ ")".

Definition flipDirection (direction : Direction) : Direction :=
  if decide (direction = Left) then Right else Left.

Module Pos.
Record t : Type := mk { x : Z; y : Z }.
Global Instance t_eq_dec : EqDecision t.
Proof. solve_decision. Defined.
Global Instance hasXY : HasXY t := {| getX := x; getY := y |}.
End Pos.

Module Enemy.
Record t : Type := mk { x : Z; y : Z; character : string; id : Z }.
Global Instance t_eq_dec : EqDecision t.
Proof. solve_decision. Defined.
Global Instance hasXY : HasXY t := {| getX := x; getY := y |}.
Definition set_x (v : Z) (e : t) : t :=
  {| x := v; y := y e; character := character e; id := id e |}.
End Enemy.

Module Bullet.
Record t : Type := mk { x : Z; y : Z; character : string; id : Z }.
Global Instance t_eq_dec : EqDecision t.
Proof. solve_decision. Defined.
Global Instance hasXY : HasXY t := {| getX := x; getY := y |}.
Definition set_y (v : Z) (b : t) : t :=
  {| x := x b; y := v; character := character b; id := id b |}.
End Bullet.

(** The fields of a [SpaceInvaders] instance. *)
Record SpaceInvaders : Type := mkGame {
  player : Pos.t;
  width : Z;
  height : Z;
  isGameRunning : bool;
  enemies : list Enemy.t;
  enemyDirection : Direction;
  bullets : list Bullet.t
}.

Definition set_player (p : Pos.t) (g : SpaceInvaders) : SpaceInvaders :=
  mkGame p (width g) (height g) (isGameRunning g) (enemies g) (enemyDirection g) (bullets g).
Definition set_isGameRunning (r : bool) (g : SpaceInvaders) : SpaceInvaders :=
  mkGame (player g) (width g) (height g) r (enemies g) (enemyDirection g) (bullets g).
Definition set_enemies (es : list Enemy.t) (g : SpaceInvaders) : SpaceInvaders :=
  mkGame (player g) (width g) (height g) (isGameRunning g) es (enemyDirection g) (bullets g).
Definition set_enemyDirection (d : Direction) (g : SpaceInvaders) : SpaceInvaders :=
  mkGame (player g) (width g) (height g) (isGameRunning g) (enemies g) d (bullets g).
Definition set_bullets (bs : list Bullet.t) (g : SpaceInvaders) : SpaceInvaders :=
  mkGame (player g) (width g) (height g) (isGameRunning g) (enemies g) (enemyDirection g) bs.

(** ** The movement and collision engine *)

(** [moveBullets]: every bullet goes up by one; the enemies whose
    coordinate string is in the set of the moved bullets' coordinate strings
    are filtered out; the bullets above the board are filtered out. *)
Definition moveBullets (g : SpaceInvaders) : SpaceInvaders :=
  let moved := (λ b, Bullet.set_y (Bullet.y b - 1) b) <$> bullets g in
  let bulletCoordinates : gset string := list_to_set (getCoordinate <$> moved) in
  let g := set_bullets moved g in
  let g := set_enemies (filter (λ e, getCoordinate e ∉ bulletCoordinates) (enemies g)) g in
  set_bullets (filter (λ b, 0 ≤ Bullet.y b) (bullets g)) g.

(** [moveEnemies]: the step is fixed first, the stored direction is flipped
    when the step would reach a wall, and the step fixed first is applied to
    every enemy. *)
Definition moveEnemies (g : SpaceInvaders) : SpaceInvaders :=
  let directionVector := if decide (enemyDirection g = Right) then 1 else -1 in
  let leftmost := JS.Math_min (Enemy.x <$> enemies g) in
  let rightmost := JS.Math_max (Enemy.x <$> enemies g) in
  let g :=
    if JS.ge (JS.add rightmost directionVector) (width g - 1)
       || JS.le (JS.add leftmost directionVector) 0
    then set_enemyDirection (flipDirection (enemyDirection g)) g
    else g in
  set_enemies ((λ enemy, Enemy.set_x (Enemy.x enemy + 1 * directionVector) enemy) <$> enemies g) g.

(** ** Identifiers and constructors

    [createId] bumps the module-level counter [count] and returns the new
    value; the constructors that call it take the counter and hand it back. *)

Definition createId (count : Z) : Z * Z := (count + 1, count + 1).

Definition Enemy_new (x y : Z) (count : Z) : Enemy.t * Z :=
  let '(id, count) := createId count in
  (Enemy.mk x y BoardCharacter.Enemy id, count).

Definition Bullet_new (x y : Z) (count : Z) : Bullet.t * Z :=
  let '(id, count) := createId count in
  (Bullet.mk x y BoardCharacter.Bullet id, count).

Definition createEnemies (count : Z) : list Enemy.t * Z :=
  let NUM_ENEMIES_PER_ROW := 8 in
  let NUM_ROWS := 3 in
  let ENEMY_X_SPACING := 3 in
  let ENEMY_Y_SPACING := 2 in
  let ENEMY_X_START := 3 in
  let ENEMY_Y_START := 1 in
  foldl (λ acc row,
    foldl (λ '(enemies, count) col,
      let '(e, count) :=
        Enemy_new (ENEMY_X_START + col * ENEMY_X_SPACING)
                  (ENEMY_Y_START + row * ENEMY_Y_SPACING) count in
      (enemies ++ [e], count))
      acc (seqZ 0 NUM_ENEMIES_PER_ROW))
    ([], count) (seqZ 0 NUM_ROWS).

(** The constructor of [SpaceInvaders]. *)
Definition SpaceInvaders_new (count : Z) : SpaceInvaders * Z :=
  let width := 40 in
  let height := 20 in
  let player := Pos.mk (width `div` 2) (height - 1) in
  let '(enemies, count) := createEnemies count in
  (mkGame player width height true enemies Right [], count).

(** ** The process: console, timer, exit *)

Inductive Output : Type :=
  | Clear                      (* console.clear() *)
  | Log (text : string)        (* console.log(text) *)
  | Debug (p : Pos.t).         (* dbg(this.player), on stderr *)

Inductive Status : Type :=
  | Alive
  | Exited (code : Z)          (* process.exit(code) *)
  | Crashed.                   (* uncaught exception in a callback *)

Global Instance Status_eq_dec : EqDecision Status.
Proof. solve_decision. Defined.

Record World : Type := mkWorld {
  count : Z;                   (* the module-level id counter *)
  game : SpaceInvaders;        (* the one instance, [game] *)
  console : list Output;       (* everything written so far, oldest first *)
  interval : bool;             (* is the [setInterval] timer still armed? *)
  status : Status
}.

(** Code that runs inside a callback: it either finishes with a value or
    ends the process ([Halt]); the world is threaded through. *)
Inductive outcome (A : Type) : Type :=
  | Done (a : A)
  | Halt.
Arguments Done {A} a.
Arguments Halt {A}.

Definition Proc (A : Type) : Type := World → outcome A * World.

Global Instance Proc_ret : MRet Proc := λ A a w, (Done a, w).
Global Instance Proc_bind : MBind Proc := λ A B k m w,
  match m w with
  | (Done a, w') => k a w'
  | (Halt, w') => (Halt, w')
  end.

Definition exec {A} (m : Proc A) (w : World) : World := snd (m w).

Definition this : Proc SpaceInvaders := λ w, (Done (game w), w).
Definition update (f : SpaceInvaders → SpaceInvaders) : Proc unit := λ w,
  (Done (), mkWorld (count w) (f (game w)) (console w) (interval w) (status w)).
Definition write (o : Output) : Proc unit := λ w,
  (Done (), mkWorld (count w) (game w) (console w ++ [o]) (interval w) (status w)).
Definition process_exit (code : Z) : Proc unit := λ w,
  (Halt, mkWorld (count w) (game w) (console w) (interval w) (Exited code)).
Definition clearInterval : Proc unit := λ w,
  (Done (), mkWorld (count w) (game w) (console w) false (status w)).
(** A value, or an exception nobody catches. *)
Definition orThrow {A} (r : option A) : Proc A := λ w,
  match r with
  | Some a => (Done a, w)
  | None => (Halt, mkWorld (count w) (game w) (console w) (interval w) Crashed)
  end.

Definition createBullet : Proc unit := λ w,
  let g := game w in
  let '(bullet, c) := Bullet_new (Pos.x (player g)) (Pos.y (player g) - 1) (count w) in
  (Done (), mkWorld c (set_bullets (bullets g ++ [bullet]) g) (console w) (interval w) (status w)).

(** ** Rendering *)

Abbreviation Board := (JS.array (JS.array string)) (only parsing).

(** [board[i][j] = v]; [None] is the TypeError raised when [board[i]] is
    [undefined]. *)
Definition put (board : Board) (i j : Z) (v : option string) : option Board :=
  row ← JS.get board i;
  Some (JS.set board i (Some (JS.set row j v))).

(** [board[i][j]], with the same TypeError. *)
Definition at_ (board : Board) (i j : Z) : option (option string) :=
  row ← JS.get board i;
  Some (JS.get row j).

(** [for (let i = 0; i < n; i++) body] over a state [S]; the body may throw. *)
Definition for_ {S} (n : Z) (body : Z → S → option S) (s : S) : option S :=
  foldl (λ acc i, acc ≫= body i) (Some s) (seqZ 0 n).

(** [xs.forEach(body)], likewise. *)
Definition forEach {A S} (xs : list A) (body : A → S → option S) (s : S) : option S :=
  foldl (λ acc a, acc ≫= body a) (Some s) xs.

(** [Array(h).fill("").map(() => Array(w).fill(bg))] *)
Definition blank (h w : Z) (bg : string) : option Board :=
  rows ← JS.Array_fill h "";
  JS.map (λ _, JS.Array_fill w bg) rows.

Definition createBaseBoard (g : SpaceInvaders) : option Board :=
  blank (height g) (width g) BoardCharacter.BaseBoardBackground.

Definition renderBullets (g : SpaceInvaders) (baseBoard : Board) : option Board :=
  forEach (bullets g)
    (λ bullet board, put board (Bullet.y bullet) (Bullet.x bullet) (Some (Bullet.character bullet)))
    baseBoard.

Definition renderEnemies (g : SpaceInvaders) (baseBoard : Board) : option Board :=
  forEach (enemies g)
    (λ enemy board, put board (Enemy.y enemy) (Enemy.x enemy) (Some (Enemy.character enemy)))
    baseBoard.

Definition createFullBoard (g : SpaceInvaders) (board : Board) : option Board :=
  let this_width := width g in
  let this_height := height g in
  let width := this_width + 2 in
  let height := this_height + 2 in
  fullBoard ← blank height width BoardCharacter.FullBoardBackground;
  (* Draw borders *)
  fullBoard ← for_ height (λ i fullBoard,
    fullBoard ← put fullBoard i 0 (Some "│");
    put fullBoard i (width - 1) (Some "│")) fullBoard;
  fullBoard ← for_ width (λ i fullBoard,
    fullBoard ← put fullBoard 0 i (Some "─");
    put fullBoard (height - 1) i (Some "─")) fullBoard;
  (* Draw corners *)
  fullBoard ← put fullBoard 0 0 (Some "┌");
  fullBoard ← put fullBoard 0 (width - 1) (Some "┐");
  fullBoard ← put fullBoard (height - 1) 0 (Some "└");
  fullBoard ← put fullBoard (height - 1) (width - 1) (Some "┘");
  (* Draw the base board on top of the full board *)
  for_ this_height (λ i fullBoard,
    for_ this_width (λ j fullBoard,
      v ← at_ board i j;
      put fullBoard (i + 1) (j + 1) v) fullBoard) fullBoard.

(** The grid that [render] prints: enemies, then bullets, then the player,
    then the frame. *)
Definition drawBaseBoard (g : SpaceInvaders) : option Board :=
  baseBoard ← createBaseBoard g;
  baseBoard ← renderEnemies g baseBoard;
  baseBoard ← renderBullets g baseBoard;
  put baseBoard (Pos.y (player g)) (Pos.x (player g)) (Some BoardCharacter.Player).

Definition newline : string := String "010" "".

(** [fullBoard.map((row) => row.join("")).join("\n")] *)
Definition boardText (fullBoard : Board) : string :=
  String.concat newline
    (List.map (λ row : option (JS.array string), from_option JS.join "" row) fullBoard).

Definition render : Proc unit :=
  _ ← write Clear;
  g ← this;
  baseBoard ← orThrow (drawBaseBoard g);
  _ ← write (Debug (player g));
  fullBoard ← orThrow (createFullBoard g baseBoard);
  _ ← write (Log (boardText fullBoard));
  write (Log (newline +:+ "Controls: ←/→ to move, Q to quit")).

(** ** Input and the game loop *)

Record Key : Type := mkKey { name : option string; ctrl : bool }.

Definition gameOver (message : string) : Proc unit :=
  _ ← update (set_isGameRunning false);
  _ ← write Clear;
  _ ← write (Log message);
  process_exit 0.

(** The listener installed by [setupInputHandling]. *)
Definition onKeypress (key : Key) : Proc unit :=
  g ← this;
  _ ← (if bool_decide (name key = Some "left") && bool_decide (0 < Pos.x (player g)) then
         update (set_player (Pos.mk (Pos.x (player g) - 1) (Pos.y (player g))))
       else if bool_decide (name key = Some "right")
               && bool_decide (Pos.x (player g) < width g - 1) then
         update (set_player (Pos.mk (Pos.x (player g) + 1) (Pos.y (player g))))
       else if bool_decide (name key = Some "q")
               || (ctrl key && bool_decide (name key = Some "c")) then
         gameOver "Thanks for playing!"
       else if bool_decide (name key = Some "space") then
         createBullet
       else mret ());
  (* Immediately render after any input *)
  render.

(** The callback given to [setInterval] in [start]. *)
Definition gameLoop : Proc unit :=
  g ← this;
  if negb (isGameRunning g) then clearInterval
  else
    _ ← update moveEnemies;
    _ ← update moveBullets;
    render.

(** The program up to the end of [game.start()]: the instance is built, the
    greeting is printed, the listener and the timer are installed. *)
Definition boot : World :=
  let '(g, c) := SpaceInvaders_new 0 in
  mkWorld c g [Log "Starting game..."] true Alive.

(** What the host event loop may deliver.  A callback runs to completion;
    nothing runs once the process has ended, and the timer callback no
    longer runs once the interval is cleared. *)
Inductive Event : Type :=
  | Keypress (key : Key)
  | Timer.

Definition dispatch (ev : Event) (w : World) : World :=
  match status w with
  | Alive =>
      match ev with
      | Keypress key => exec (onKeypress key) w
      | Timer => if interval w then exec gameLoop w else w
      end
  | _ => w
  end.

Definition run (evs : list Event) (w : World) : World := foldl (λ w ev, dispatch ev w) w evs.

Inductive reachable : World → Prop :=
  | reachable_boot : reachable boot
  | reachable_step w ev : reachable w → reachable (dispatch ev w).

(** ** Statements of the specification, in its own words *)

(** Does the character [c] occur in [s]? *)
Fixpoint occurs (c : ascii) (s : string) : bool :=
  match s with
  | EmptyString => false
  | String a rest => bool_decide (a = c) || occurs c rest
  end.

(** [c] is none of the ten digits. *)
Definition digit_free (c : ascii) : Prop := ∀ d, pretty_N_char d ≠ c.

(** The position a bullet has once [moveBullets] has moved it. *)
Definition moved (b : Bullet.t) : Bullet.t := Bullet.set_y (Bullet.y b - 1) b.

(** "A projectile at (x,y) and an enemy at (x,y) in the same tick both
    vanish": whenever a moved bullet sits on an enemy, neither is left. *)
Definition collision_removes_both (g : SpaceInvaders) : Prop :=
  ∀ b e, b ∈ bullets g → e ∈ enemies g →
    Enemy.x e = Bullet.x (moved b) → Enemy.y e = Bullet.y (moved b) →
    (e ∉ enemies (moveBullets g)) ∧ (moved b ∉ bullets (moveBullets g)).

(** "An enemy at (x,y+1) with a projectile moving from (x,y+1) to (x,y) is
    also removed": an enemy on the cell a bullet starts the tick in. *)
Definition premove_collision_removes_enemy (g : SpaceInvaders) : Prop :=
  ∀ b e, b ∈ bullets g → e ∈ enemies g →
    Enemy.x e = Bullet.x b → Enemy.y e = Bullet.y b →
    e ∉ enemies (moveBullets g).

(** The leftmost and the rightmost x of a formation. *)
Definition leftmost_is (g : SpaceInvaders) (l : Z) : Prop :=
  (∃ e, e ∈ enemies g ∧ Enemy.x e = l) ∧ ∀ e, e ∈ enemies g → l ≤ Enemy.x e.
Definition rightmost_is (g : SpaceInvaders) (r : Z) : Prop :=
  (∃ e, e ∈ enemies g ∧ Enemy.x e = r) ∧ ∀ e, e ∈ enemies g → Enemy.x e ≤ r.

(** "The directional step (+1 for Right, -1 for Left)". *)
Definition step_of (d : Direction) : Z :=
  match d with
  | Right => 1
  | Left => -1
  end.

(** A formation moved as a whole: every x changed by [d], nothing else. *)
Definition shifted (d : Z) (es : list Enemy.t) : list Enemy.t :=
  (λ e, Enemy.set_x (Enemy.x e + d) e) <$> es.

(** All pairwise x-offsets of a formation, with multiplicity. *)
Definition offsets (es : list Enemy.t) : list Z :=
  flat_map (λ a, List.map (λ b, Enemy.x a - Enemy.x b) es) es.

(** "Flip the direction": Left becomes Right and Right becomes Left. *)
Definition opposite (d : Direction) : Direction :=
  match d with
  | Left => Right
  | Right => Left
  end.

(** A formation one step from the left wall, heading left. *)
Definition g_left_edge : SpaceInvaders :=
  mkGame (Pos.mk 20 19) 40 20 true
    [Enemy.mk 1 1 BoardCharacter.Enemy 1; Enemy.mk 4 1 BoardCharacter.Enemy 2] Left [].

(** A formation one step from the right wall, heading right. *)
Definition g_edge : SpaceInvaders :=
  mkGame (Pos.mk 20 19) 40 20 true
    [Enemy.mk 35 1 BoardCharacter.Enemy 7; Enemy.mk 38 1 BoardCharacter.Enemy 8] Right [].

(** "0 <= x < boardWidth, 0 <= y < boardHeight". *)
Definition inside (g : SpaceInvaders) (x y : Z) : Prop :=
  0 ≤ x < width g ∧ 0 ≤ y < height g.

(** Every entity of the session is on the board. *)
Definition onBoard (g : SpaceInvaders) : Prop :=
  inside g (Pos.x (player g)) (Pos.y (player g)) ∧
  (∀ e, e ∈ enemies g → inside g (Enemy.x e) (Enemy.y e)) ∧
  (∀ b, b ∈ bullets g → inside g (Bullet.x b) (Bullet.y b)).

(** The quit input: 'q', or 'c' with the control modifier. *)
Definition is_quit (key : Key) : Prop :=
  name key = Some "q" ∨ (ctrl key = true ∧ name key = Some "c").

Definition key_left : Key := mkKey (Some "left") false.
Definition key_right : Key := mkKey (Some "right") false.
Definition key_space : Key := mkKey (Some "space") false.
Definition key_q : Key := mkKey (Some "q") false.
Definition key_ctrl_c : Key := mkKey (Some "c") true.

(** The entity of [l] that is drawn last on the cell (x,y), if there is one. *)
Definition last_at `{HasXY A} (x y : Z) (l : list A) : option A :=
  last (filter (λ a, getX a = x ∧ getY a = y) l).

(** What the interior cell (x,y) shows: the player if it is there, else a
    bullet that is there, else an enemy that is there, else the background. *)
Definition interior (g : SpaceInvaders) (x y : Z) : string :=
  if decide (Pos.x (player g) = x ∧ Pos.y (player g) = y) then BoardCharacter.Player
  else match last_at x y (bullets g) with
       | Some b => Bullet.character b
       | None =>
           match last_at x y (enemies g) with
           | Some e => Enemy.character e
           | None => BoardCharacter.BaseBoardBackground
           end
       end.

(** A frame around an [h] x [w] grid [inner]: the four corners, the two
    horizontal and the two vertical edges, and inside them [inner] shifted by
    one row and one column. *)
Definition frame_of (h w : Z) (inner : Z → Z → string) (i j : Z) : string :=
  let bottom := h + 1 in
  let right := w + 1 in
  if decide (i = 0 ∧ j = 0) then "┌"
  else if decide (i = 0 ∧ j = right) then "┐"
  else if decide (i = bottom ∧ j = 0) then "└"
  else if decide (i = bottom ∧ j = right) then "┘"
  else if decide (i = 0 ∨ i = bottom) then "─"
  else if decide (j = 0 ∨ j = right) then "│"
  else inner (i - 1) (j - 1).

(** What the cell in row [i], column [j] of the printed grid shows. *)
Definition framed (g : SpaceInvaders) (i j : Z) : string :=
  frame_of (height g) (width g) (λ r c, interior g c r) i j.

(** The glyph of every enemy and of every bullet is one character, as it is
    for everything the two constructors build. *)
Definition single_glyphs (g : SpaceInvaders) : Prop :=
  (∀ e, e ∈ enemies g → JS.length (Enemy.character e) = 1%nat) ∧
  (∀ b, b ∈ bullets g → JS.length (Bullet.character b) = 1%nat).

(** [board] is a full [H] x [W] grid whose cell in row [i], column [j] holds
    the string [f i j]. *)
Definition shows (H W : Z) (board : Board) (f : Z → Z → string) : Prop :=
  length board = Z.to_nat H ∧
  ∀ i, 0 ≤ i < H →
    ∃ row, JS.get board i = Some row ∧ length row = Z.to_nat W ∧
           ∀ j, 0 ≤ j < W → JS.get row j = Some (f i j).

(** [f] with the cell in row [i], column [j] overwritten by [c]. *)
Definition upd (f : Z → Z → string) (i j : Z) (c : string) : Z → Z → string :=
  λ i' j', if decide (i' = i ∧ j' = j) then c else f i' j'.

(** [m] does not throw, and its result satisfies [Q]. *)
Definition succeeds {A} (m : option A) (Q : A → Prop) : Prop :=
  ∃ a, m = Some a ∧ Q a.

(** What [render] appends to the console when nothing throws. *)
Definition rendered (g : SpaceInvaders) (fullBoard : Board) : list Output :=
  [Clear; Debug (player g); Log (boardText fullBoard);
   Log (newline +:+ "Controls: ←/→ to move, Q to quit")].

(** What every state of a session satisfies (shown below): the board is
    40 x 20, the player is on the bottom row, the formation keeps one free
    column ahead of it in the stored direction, bullets are above the
    player's row. *)
Definition session_inv (g : SpaceInvaders) : Prop :=
  width g = 40 ∧ height g = 20 ∧
  Pos.y (player g) = 19 ∧ 0 ≤ Pos.x (player g) ≤ 39 ∧
  (∀ e, e ∈ enemies g →
     0 ≤ Enemy.y e < 20 ∧ 0 ≤ Enemy.x e ≤ 39 ∧
     (enemyDirection g = Right → Enemy.x e ≤ 38) ∧
     (enemyDirection g = Left → 1 ≤ Enemy.x e)) ∧
  (∀ b, b ∈ bullets g → 0 ≤ Bullet.x b ≤ 39 ∧ 0 ≤ Bullet.y b ≤ 18).

(** Every glyph is the one its constructor assigned. *)
Definition built_glyphs (g : SpaceInvaders) : Prop :=
  (∀ e, e ∈ enemies g → Enemy.character e = BoardCharacter.Enemy) ∧
  (∀ b, b ∈ bullets g → Bullet.character b = BoardCharacter.Bullet).

(** A bullet one cell below an enemy, both well inside the board. *)
Definition g_hit : SpaceInvaders :=
  mkGame (Pos.mk 20 19) 40 20 true
    [Enemy.mk 5 3 BoardCharacter.Enemy 1] Right
    [Bullet.mk 5 4 BoardCharacter.Bullet 25].

(** A bullet on the very cell of an enemy when [moveBullets] starts. *)
Definition g_overlap : SpaceInvaders :=
  mkGame (Pos.mk 20 19) 40 20 true
    [Enemy.mk 5 4 BoardCharacter.Enemy 1] Right
    [Bullet.mk 5 4 BoardCharacter.Bullet 25].

(** The ids of all entities of a session, enemies first. *)
Definition ids (g : SpaceInvaders) : list Z :=
  (Enemy.id <$> enemies g) ++ (Bullet.id <$> bullets g).

(** What identifies an enemy apart from its column: id, row and glyph. *)
Definition enemy_card (e : Enemy.t) : Z * Z * string :=
  (Enemy.id e, Enemy.y e, Enemy.character e).

(** The [k]-th enemy that [createEnemies] builds when the id counter stands
    at [count]: eight to a row, three columns apart, rows two apart. *)
Definition formation_enemy (count k : Z) : Enemy.t :=
  Enemy.mk (3 + 3 * (k `mod` 8)) (1 + 2 * (k `div` 8)) BoardCharacter.Enemy (count + k + 1).

(** A bullet [n] cells higher. *)
Definition risen (n : Z) (b : Bullet.t) : Bullet.t := Bullet.set_y (Bullet.y b - n) b.

(** Some entity of the session has a y that is no row of the board. *)
Definition off_rows (g : SpaceInvaders) : Prop :=
  (∃ e, e ∈ enemies g ∧ ¬ (0 ≤ Enemy.y e < height g)) ∨
  (∃ b, b ∈ bullets g ∧ ¬ (0 ≤ Bullet.y b < height g)) ∨
  ¬ (0 ≤ Pos.y (player g) < height g).

(** A 1 x 1 session, and a 1 x 1 board holding the letter a. *)
Definition g_tiny : SpaceInvaders := mkGame (Pos.mk 0 0) 1 1 true [] Right [].
Definition board_a : Board := [Some [Some "a"]].

(** A session with a bullet one row above the board. *)
Definition g_above : SpaceInvaders :=
  mkGame (Pos.mk 20 19) 40 20 true [] Right [Bullet.mk 5 (-1) BoardCharacter.Bullet 25].

(** Line [i] of the printed board, and the whole printed board. *)
Definition screen_line (g : SpaceInvaders) (i : Z) : string :=
  String.concat "" ((λ j, framed g i j) <$> seqZ 0 (width g + 2)).
Definition screen_text (g : SpaceInvaders) : string :=
  String.concat newline (screen_line g <$> seqZ 0 (height g + 2)).


(** Deciding which of the overwritten cells a position is. *)
Ltac cells :=
  intros; unfold upd, frame_of; cbv zeta;
  repeat case_decide; try done; try lia; try (f_equal; lia).

(** * Properties *)

(** ** Coordinate strings identify positions *)

Section coordinates.

Lemma occurs_app c s t : occurs c (s +:+ t) = occurs c s || occurs c t.
Proof. induction s as [|a s IH]; simpl; [done|]. by rewrite IH, orb_assoc. Qed.

(** Two strings cut at the first occurrence of [c] agree piecewise. *)
Lemma cut_at_first c s1 s2 t1 t2 :
  occurs c s1 = false → occurs c s2 = false →
  s1 +:+ String c t1 = s2 +:+ String c t2 → s1 = s2 ∧ t1 = t2.
Proof.
  revert s2. induction s1 as [|a s1 IH]; intros [|b s2]; simpl; intros H1 H2 Heq.
  - by simplify_eq.
  - simplify_eq. rewrite bool_decide_eq_true_2 in H2 by done. done.
  - simplify_eq. rewrite bool_decide_eq_true_2 in H1 by done. done.
  - apply orb_false_iff in H1 as [_ H1]. apply orb_false_iff in H2 as [_ H2].
    injection Heq as -> Heq. destruct (IH _ H1 H2 Heq) as [-> ->]. done.
Qed.

Lemma pretty_N_go_occurs c x s :
  digit_free c → occurs c s = false → occurs c (pretty_N_go x s) = false.
Proof.
  intros Hc. revert s. induction (N.lt_wf_0 x) as [x _ IH]; intros s Hs.
  destruct (decide (x = 0)%N) as [->|Hx]; [by rewrite pretty_N_go_0|].
  rewrite pretty_N_go_step by lia. apply IH.
  - apply N.div_lt; lia.
  - simpl. rewrite Hs, orb_false_r. apply bool_decide_eq_false_2, Hc.
Qed.

Lemma toString_occurs c n :
  digit_free c → c ≠ "-"%char → occurs c (JS.toString n) = false.
Proof.
  intros Hc Hm. unfold JS.toString, pretty, pretty_Z.
  assert (∀ p : positive, occurs c (pretty p) = false) as Hpos.
  { intros p. unfold pretty, pretty_positive, pretty, pretty_N.
    case_decide; [done|]. by apply pretty_N_go_occurs. }
  destruct n as [|p|p]; simpl.
  - rewrite orb_false_r. apply bool_decide_eq_false_2, (Hc 0%N).
  - apply Hpos.
  - rewrite occurs_app, Hpos, !orb_false_r. apply bool_decide_eq_false_2. congruence.
Qed.

Lemma comma_digit_free : digit_free ","%char.
Proof. intros d. unfold pretty_N_char. by repeat case_match. Qed.

Lemma paren_digit_free : digit_free ")"%char.
Proof. intros d. unfold pretty_N_char. by repeat case_match. Qed.

Lemma getCoordinate_inj `{HasXY A} `{HasXY B} (a : A) (b : B) :
  getCoordinate a = getCoordinate b ↔ getX a = getX b ∧ getY a = getY b.
Proof.
  split; [|by unfold getCoordinate; intros [-> ->]].
  unfold getCoordinate. intros Heq. simpl in Heq. injection Heq as Heq.
  apply cut_at_first in Heq as [Hx Hy];
    [|by apply toString_occurs; [apply comma_digit_free|]..].
  apply (inj pretty) in Hx.
  apply (cut_at_first _ _ _ "" "") in Hy as [Hy _];
    [|by apply toString_occurs; [apply paren_digit_free|]..].
  apply (inj pretty) in Hy. done.
Qed.

End coordinates.

(** ** [moveBullets] *)

Section moveBullets.

Implicit Types (g : SpaceInvaders) (b : Bullet.t) (e : Enemy.t).

Lemma moveBullets_bullets g :
  bullets (moveBullets g) = filter (λ b, 0 ≤ Bullet.y b) (moved <$> bullets g).
Proof. done. Qed.

Lemma moveBullets_enemies g e :
  e ∈ enemies (moveBullets g) ↔
  e ∈ enemies g ∧ ∀ b, b ∈ bullets g → getCoordinate e ≠ getCoordinate (moved b).
Proof.
  unfold moveBullets; simpl. rewrite list_elem_of_filter, elem_of_list_to_set.
  rewrite list_elem_of_fmap. split.
  - intros [Hno He]. split; [done|]. intros b Hb Heq. apply Hno.
    exists (moved b). split; [done|]. apply list_elem_of_fmap. eauto.
  - intros [He Hno]. split; [|done]. intros (b' & Heq & Hb').
    apply list_elem_of_fmap in Hb' as (b & -> & Hb). by eapply Hno.
Qed.

Lemma moveBullets_other g :
  player (moveBullets g) = player g ∧ width (moveBullets g) = width g ∧
  height (moveBullets g) = height g ∧ isGameRunning (moveBullets g) = isGameRunning g ∧
  enemyDirection (moveBullets g) = enemyDirection g.
Proof. done. Qed.

Lemma moveBullets_y_nonneg g b : b ∈ bullets (moveBullets g) → 0 ≤ Bullet.y b.
Proof. rewrite moveBullets_bullets, list_elem_of_filter. tauto. Qed.

End moveBullets.

(** The two calls behind the counterexamples below, evaluated. *)
Example moveBullets_g_hit :
  moveBullets g_hit =
  mkGame (Pos.mk 20 19) 40 20 true [] Right [Bullet.mk 5 3 BoardCharacter.Bullet 25].
Proof. by vm_compute. Qed.

Example moveBullets_g_overlap :
  moveBullets g_overlap =
  mkGame (Pos.mk 20 19) 40 20 true
    [Enemy.mk 5 4 BoardCharacter.Enemy 1] Right [Bullet.mk 5 3 BoardCharacter.Bullet 25].
Proof. by vm_compute. Qed.

(** C1, as the specification words it, fails: in [g_hit] the bullet at
    (5,4) moves onto the enemy at (5,3); the enemy goes, the bullet stays
    in the collection at (5,3). *)
Lemma C1_bullet_survives_hit : ¬ collision_removes_both g_hit.
Proof.
  intros Hclaim.
  destruct (Hclaim (Bullet.mk 5 4 BoardCharacter.Bullet 25)
                   (Enemy.mk 5 3 BoardCharacter.Enemy 1)) as [_ Hgone];
    [set_solver..| | |]; [done..|].
  apply Hgone. vm_compute. set_solver.
Qed.

(** C1 (amended): when a moved bullet and an enemy share a position,
    [moveBullets] removes the enemy in that call; the bullet is not removed
    by the hit: it stays in the collection, at its moved position, exactly
    when its y after the move is still >= 0. *)
Theorem C1_hit_removes_enemy_only (g : SpaceInvaders) (b : Bullet.t) (e : Enemy.t) :
  b ∈ bullets g → e ∈ enemies g →
  Enemy.x e = Bullet.x (moved b) → Enemy.y e = Bullet.y (moved b) →
  (e ∉ enemies (moveBullets g)) ∧
  (moved b ∈ bullets (moveBullets g) ↔ 0 ≤ Bullet.y (moved b)).
Proof.
  intros Hb He Hx Hy. split.
  - rewrite moveBullets_enemies. intros [_ Hno]. apply (Hno b Hb).
    by apply getCoordinate_inj.
  - rewrite moveBullets_bullets, list_elem_of_filter, list_elem_of_fmap.
    split; [tauto|]. eauto.
Qed.

Lemma C1_hit_removes_enemy_only_witness :
  (Enemy.mk 5 3 BoardCharacter.Enemy 1 ∉ enemies (moveBullets g_hit)) ∧
  (moved (Bullet.mk 5 4 BoardCharacter.Bullet 25) ∈ bullets (moveBullets g_hit) ↔
   0 ≤ Bullet.y (moved (Bullet.mk 5 4 BoardCharacter.Bullet 25))).
Proof.
  apply (C1_hit_removes_enemy_only g_hit); [apply list_elem_of_here..|reflexivity|reflexivity].
Defined.

(** C2, as the specification words it, fails: in [g_overlap] the bullet
    starts the call on the enemy's cell (5,4) and moves to (5,3); the enemy
    at (5,4) is still there afterwards. *)
Lemma C2_premove_enemy_survives : ¬ premove_collision_removes_enemy g_overlap.
Proof.
  intros Hclaim.
  apply (Hclaim (Bullet.mk 5 4 BoardCharacter.Bullet 25)
                (Enemy.mk 5 4 BoardCharacter.Enemy 1)); [set_solver..| | |]; [done..|].
  vm_compute. set_solver.
Qed.

(** C2 (amended): the positions after the move decide.  An enemy survives
    [moveBullets] exactly when no bullet's position after the move is the
    enemy's position; so for a bullet moving from (x,y+1) to (x,y) the enemy
    at (x,y) is removed, and an enemy at (x,y+1) is removed only if another
    bullet arrives there. *)
Theorem C2_postmove_collision (g : SpaceInvaders) (e : Enemy.t) :
  e ∈ enemies (moveBullets g) ↔
  e ∈ enemies g ∧
  ∀ b, b ∈ bullets g → ¬ (Bullet.x b = Enemy.x e ∧ Bullet.y b - 1 = Enemy.y e).
Proof.
  rewrite moveBullets_enemies. apply and_iff_compat_l.
  split; intros Hno b Hb Hpos; apply (Hno b Hb).
  - apply getCoordinate_inj. simpl. by destruct Hpos.
  - apply getCoordinate_inj in Hpos. simpl in Hpos. by destruct Hpos.
Qed.

(** ** [moveEnemies] *)

Section moveEnemies.

Implicit Types (g : SpaceInvaders) (e : Enemy.t).

Lemma Math_max_from a xs :
  ∃ m, foldl (λ acc v, JS.max2 acc (JS.Int v)) (JS.Int a) xs = JS.Int m ∧
       m ∈ a :: xs ∧ ∀ v, v ∈ a :: xs → v ≤ m.
Proof.
  revert a. induction xs as [|x xs IH]; intros a; simpl.
  - exists a. split_and!; [done|by left|].
    intros v Hv. by apply list_elem_of_singleton in Hv as ->.
  - destruct (IH (Z.max a x)) as (m & -> & Hin & Hle). exists m. split_and!; [done| |].
    + apply elem_of_cons in Hin as [->|Hin]; [|by do 2 right].
      destruct (Z.max_spec a x) as [[_ ->]|[_ ->]]; [right|]; by left.
    + assert (Z.max a x ≤ m) by (apply Hle; by left).
      intros v [->|[->|Hv]%elem_of_cons]%elem_of_cons; [lia..|]. apply Hle. by right.
Qed.

Lemma Math_min_from a xs :
  ∃ m, foldl (λ acc v, JS.min2 acc (JS.Int v)) (JS.Int a) xs = JS.Int m ∧
       m ∈ a :: xs ∧ ∀ v, v ∈ a :: xs → m ≤ v.
Proof.
  revert a. induction xs as [|x xs IH]; intros a; simpl.
  - exists a. split_and!; [done|by left|].
    intros v Hv. by apply list_elem_of_singleton in Hv as ->.
  - destruct (IH (Z.min a x)) as (m & -> & Hin & Hle). exists m. split_and!; [done| |].
    + apply elem_of_cons in Hin as [->|Hin]; [|by do 2 right].
      destruct (Z.min_spec a x) as [[_ ->]|[_ ->]]; [|right]; by left.
    + assert (m ≤ Z.min a x) by (apply Hle; by left).
      intros v [->|[->|Hv]%elem_of_cons]%elem_of_cons; [lia..|]. apply Hle. by right.
Qed.

Lemma Math_max_spec xs :
  xs ≠ [] → ∃ m, JS.Math_max xs = JS.Int m ∧ m ∈ xs ∧ ∀ v, v ∈ xs → v ≤ m.
Proof. destruct xs as [|a xs]; [done|]. intros _. apply Math_max_from. Qed.

Lemma Math_min_spec xs :
  xs ≠ [] → ∃ m, JS.Math_min xs = JS.Int m ∧ m ∈ xs ∧ ∀ v, v ∈ xs → m ≤ v.
Proof. destruct xs as [|a xs]; [done|]. intros _. apply Math_min_from. Qed.

Lemma rightmost_Math_max g r :
  rightmost_is g r → JS.Math_max (Enemy.x <$> enemies g) = JS.Int r.
Proof.
  intros [(e & He & <-) Hle].
  destruct (Math_max_spec (Enemy.x <$> enemies g)) as (m & -> & Hm & Hmax).
  { intros Hnil. apply fmap_nil_inv in Hnil. rewrite Hnil in He. by apply elem_of_nil in He. }
  f_equal. apply list_elem_of_fmap in Hm as (e' & -> & He').
  apply Z.le_antisymm; [by apply Hle|]. apply Hmax, list_elem_of_fmap; eauto.
Qed.

Lemma leftmost_Math_min g l :
  leftmost_is g l → JS.Math_min (Enemy.x <$> enemies g) = JS.Int l.
Proof.
  intros [(e & He & <-) Hle].
  destruct (Math_min_spec (Enemy.x <$> enemies g)) as (m & -> & Hm & Hmin).
  { intros Hnil. apply fmap_nil_inv in Hnil. rewrite Hnil in He. by apply elem_of_nil in He. }
  f_equal. apply list_elem_of_fmap in Hm as (e' & -> & He').
  apply Z.le_antisymm; [|by apply Hle]. apply Hmin, list_elem_of_fmap; eauto.
Qed.

Lemma directionVector_step_of g :
  (if decide (enemyDirection g = Right) then 1 else -1) = step_of (enemyDirection g).
Proof. by destruct (enemyDirection g). Qed.

(** The enemies always move by the step fixed on entry. *)
Lemma moveEnemies_enemies g :
  enemies (moveEnemies g) = shifted (step_of (enemyDirection g)) (enemies g).
Proof.
  unfold moveEnemies. rewrite directionVector_step_of.
  case (_ || _); simpl; unfold shifted; apply list_fmap_ext; intros _ e _;
    by rewrite Z.mul_1_l.
Qed.

Lemma moveEnemies_other g :
  player (moveEnemies g) = player g ∧ width (moveEnemies g) = width g ∧
  height (moveEnemies g) = height g ∧ isGameRunning (moveEnemies g) = isGameRunning g ∧
  bullets (moveEnemies g) = bullets g.
Proof. unfold moveEnemies. by case (_ || _). Qed.

(** The stored direction of a non-empty formation. *)
Lemma moveEnemies_direction g l r :
  leftmost_is g l → rightmost_is g r →
  enemyDirection (moveEnemies g) =
    if decide (width g - 1 ≤ r + step_of (enemyDirection g)
               ∨ l + step_of (enemyDirection g) ≤ 0)
    then flipDirection (enemyDirection g) else enemyDirection g.
Proof.
  intros Hl Hr. unfold moveEnemies.
  rewrite directionVector_step_of, (rightmost_Math_max _ _ Hr), (leftmost_Math_min _ _ Hl).
  simpl. case_decide as Hc.
  - rewrite (proj2 (orb_true_iff _ _)); [done|].
    rewrite !bool_decide_eq_true. done.
  - rewrite (proj2 (orb_false_iff _ _)); [done|].
    rewrite !bool_decide_eq_false. tauto.
Qed.

Lemma moveEnemies_nil g : enemies g = [] → moveEnemies g = g.
Proof.
  destruct g as [p w h r es d bs]. simpl. intros ->.
  unfold moveEnemies. simpl. by destruct d.
Qed.

Lemma extremes_exist g :
  enemies g ≠ [] → ∃ l r, leftmost_is g l ∧ rightmost_is g r.
Proof.
  intros Hne.
  assert (Enemy.x <$> enemies g ≠ []) as Hxs by (by intros ?%fmap_nil_inv).
  destruct (Math_min_spec _ Hxs) as (l & _ & Hl & Hmin).
  destruct (Math_max_spec _ Hxs) as (r & _ & Hr & Hmax).
  apply list_elem_of_fmap in Hl as (el & -> & Hel).
  apply list_elem_of_fmap in Hr as (er & -> & Her).
  exists (Enemy.x el), (Enemy.x er). split; (split; [by eauto|]); intros e He.
  - apply Hmin, list_elem_of_fmap; eauto.
  - apply Hmax, list_elem_of_fmap; eauto.
Qed.

Lemma offsets_shifted_gen d (l1 l2 : list Enemy.t) :
  flat_map (λ a, List.map (λ b, Enemy.x a - Enemy.x b) (shifted d l2)) (shifted d l1)
  = flat_map (λ a, List.map (λ b, Enemy.x a - Enemy.x b) l2) l1.
Proof.
  induction l1 as [|a l1 IH]; simpl; [done|]. unfold shifted in *. rewrite IH. f_equal.
  rewrite List.map_map. apply List.map_ext. intros b. simpl. lia.
Qed.

Lemma offsets_shifted d es : offsets (shifted d es) = offsets es.
Proof. apply offsets_shifted_gen. Qed.

End moveEnemies.

(** C3: with a non-empty formation whose rightmost x is [width - 2] and the
    stored direction Right, one [moveEnemies] stores Left and still adds 1
    to every enemy's x; in general, when the step would take the rightmost
    enemy to [>= width - 1] or the leftmost to [<= 0], the stored direction
    becomes the opposite one (Right for Left, Left for Right) and the
    enemies move by the step of the direction on entry (and otherwise the
    direction is kept). *)
Theorem C3_flip_and_still_move (g : SpaceInvaders) (l r : Z) :
  leftmost_is g l → rightmost_is g r →
  let d := step_of (enemyDirection g) in
  (r = width g - 2 → enemyDirection g = Right →
     enemyDirection (moveEnemies g) = Left ∧
     enemies (moveEnemies g) = shifted 1 (enemies g)) ∧
  (width g - 1 ≤ r + d ∨ l + d ≤ 0 →
     enemyDirection (moveEnemies g) = opposite (enemyDirection g) ∧
     enemies (moveEnemies g) = shifted d (enemies g)) ∧
  (¬ (width g - 1 ≤ r + d ∨ l + d ≤ 0) →
     enemyDirection (moveEnemies g) = enemyDirection g ∧
     enemies (moveEnemies g) = shifted d (enemies g)).
Proof.
  intros Hl Hr d. pose proof (moveEnemies_direction g l r Hl Hr) as Hdir.
  pose proof (moveEnemies_enemies g) as Hes. fold d in Hdir, Hes.
  split; [|split].
  - intros -> HR. rewrite Hes, Hdir. subst d. rewrite HR. simpl.
    rewrite decide_True by lia. done.
  - intros Hc. rewrite Hdir, decide_True by done. split; [|done].
    by destruct (enemyDirection g).
  - intros Hc. by rewrite Hdir, decide_False.
Qed.

Lemma C3_flip_and_still_move_witness :
  (enemyDirection (moveEnemies g_edge) = Left ∧
   enemies (moveEnemies g_edge) = shifted 1 (enemies g_edge)) ∧
  (enemyDirection (moveEnemies g_left_edge) = Right ∧
   enemies (moveEnemies g_left_edge) = shifted (-1) (enemies g_left_edge)).
Proof.
  split.
  - refine (proj1 (C3_flip_and_still_move g_edge 35 38 _ _) _ _);
      [split; [eexists; split; [apply list_elem_of_here|reflexivity]
              |intros e He; repeat (apply elem_of_cons in He as [->|He]; [simpl; lia|]);
               by apply elem_of_nil in He]
      |split; [eexists; split; [apply list_elem_of_further, list_elem_of_here|reflexivity]
              |intros e He; repeat (apply elem_of_cons in He as [->|He]; [simpl; lia|]);
               by apply elem_of_nil in He]
      |reflexivity|reflexivity].
  - refine (proj1 (proj2 (C3_flip_and_still_move g_left_edge 1 4 _ _)) _);
      [split; [eexists; split; [apply list_elem_of_here|reflexivity]
              |intros e He; repeat (apply elem_of_cons in He as [->|He]; [simpl; lia|]);
               by apply elem_of_nil in He]
      |split; [eexists; split; [apply list_elem_of_further, list_elem_of_here|reflexivity]
              |intros e He; repeat (apply elem_of_cons in He as [->|He]; [simpl; lia|]);
               by apply elem_of_nil in He]
      |right; simpl; lia].
Defined.

(** C5: with no enemies [moveEnemies] changes nothing at all, whichever
    direction is stored: [Math.max()] is -Infinity and [Math.min()] is
    Infinity, so neither wall test fires, and there is nobody to move. *)
Theorem C5_no_enemies_no_op (g : SpaceInvaders) :
  enemies g = [] → moveEnemies g = g.
Proof. apply moveEnemies_nil. Qed.

Lemma C5_no_enemies_no_op_witness :
  moveEnemies (mkGame (Pos.mk 20 19) 40 20 true [] Left []) =
  mkGame (Pos.mk 20 19) 40 20 true [] Left [].
Proof. apply C5_no_enemies_no_op. reflexivity. Defined.

(** C7: [moveEnemies] adds one and the same amount, +1 or -1, to the x of
    every enemy, so all pairwise x-offsets are as before; the y, the id and
    the glyph of every enemy, the player and the bullets are untouched. *)
Theorem C7_formation_moves_as_one (g : SpaceInvaders) :
  ∃ d, (d = 1 ∨ d = -1) ∧
    Forall2 (λ e e', Enemy.x e' = Enemy.x e + d ∧ Enemy.y e' = Enemy.y e ∧
                     Enemy.id e' = Enemy.id e ∧ Enemy.character e' = Enemy.character e)
            (enemies g) (enemies (moveEnemies g)) ∧
    offsets (enemies (moveEnemies g)) = offsets (enemies g) ∧
    player (moveEnemies g) = player g ∧
    bullets (moveEnemies g) = bullets g.
Proof.
  exists (step_of (enemyDirection g)). rewrite moveEnemies_enemies, offsets_shifted.
  destruct (moveEnemies_other g) as (-> & _ & _ & _ & ->).
  split; [destruct (enemyDirection g); auto|]. split; [|done].
  unfold shifted. apply Forall2_fmap_r, Forall_Forall2_diag, Forall_forall. done.
Qed.

(** ** The callbacks, seen from the session state *)

Section callbacks.

Implicit Types (w : World) (g : SpaceInvaders) (key : Key) (ev : Event).

(** [render] writes to the console and may end the process; it leaves the
    session, the id counter and the timer alone. *)
Lemma render_frame w :
  game (exec render w) = game w ∧ count (exec render w) = count w ∧
  interval (exec render w) = interval w.
Proof.
  unfold render, exec, mbind, Proc_bind, this, write, orThrow.
  cbn -[drawBaseBoard createFullBoard boardText].
  destruct (drawBaseBoard (game w)); cbn -[createFullBoard boardText]; [|done].
  by destruct (createFullBoard (game w) _).
Qed.

Lemma render_game w : game (exec render w) = game w.
Proof. apply render_frame. Qed.

Lemma exec_bind {A B} (m : Proc A) (k : A → Proc B) w :
  exec (m ≫= k) w = match m w with
                    | (Done a, w') => exec (k a) w'
                    | (Halt, w') => w'
                    end.
Proof. unfold exec, mbind, Proc_bind. by destruct (m w) as [[a|] w']. Qed.

(** What a key press does to the session. *)
Lemma onKeypress_game key w :
  game (exec (onKeypress key) w) =
    let g := game w in
    if bool_decide (name key = Some "left") && bool_decide (0 < Pos.x (player g)) then
      set_player (Pos.mk (Pos.x (player g) - 1) (Pos.y (player g))) g
    else if bool_decide (name key = Some "right")
            && bool_decide (Pos.x (player g) < width g - 1) then
      set_player (Pos.mk (Pos.x (player g) + 1) (Pos.y (player g))) g
    else if bool_decide (name key = Some "q")
            || (ctrl key && bool_decide (name key = Some "c")) then
      set_isGameRunning false g
    else if bool_decide (name key = Some "space") then
      set_bullets (bullets g ++ [Bullet.mk (Pos.x (player g)) (Pos.y (player g) - 1)
                                           BoardCharacter.Bullet (count w + 1)]) g
    else g.
Proof.
  unfold onKeypress. rewrite exec_bind. unfold this at 1. cbv beta iota zeta.
  rewrite exec_bind.
  destruct (bool_decide (name key = Some "left") && _);
    [|destruct (bool_decide (name key = Some "right") && _);
      [|destruct (bool_decide (name key = Some "q") || _);
        [|destruct (bool_decide (name key = Some "space"))]]].
  - unfold update. by rewrite render_game.
  - unfold update. by rewrite render_game.
  - by cbv beta iota delta [gameOver mbind Proc_bind update write process_exit].
  - unfold createBullet, Bullet_new, createId. cbv beta iota zeta. by rewrite render_game.
  - unfold mret, Proc_ret. by rewrite render_game.
Qed.

(** What a timer tick does to the session while it is running. *)
Lemma gameLoop_game w :
  game (exec gameLoop w) =
    if isGameRunning (game w) then moveBullets (moveEnemies (game w)) else game w.
Proof.
  unfold gameLoop. rewrite exec_bind. unfold this at 1. cbv beta iota zeta.
  destruct (isGameRunning (game w)); [|done]. cbn [negb].
  do 2 (rewrite exec_bind; cbv beta iota delta [update]). by rewrite render_game.
Qed.

(** The callback on a stopped session: the timer is cleared, and that is all. *)
Lemma gameLoop_stopped w :
  isGameRunning (game w) = false →
  exec gameLoop w = mkWorld (count w) (game w) (console w) false (status w).
Proof.
  intros Hstop. unfold gameLoop. rewrite exec_bind. unfold this at 1. cbv beta iota.
  by rewrite Hstop.
Qed.

Lemma dispatch_dead ev w : status w ≠ Alive → dispatch ev w = w.
Proof. unfold dispatch. by destruct (status w). Qed.

Lemma run_dead evs w : status w ≠ Alive → run evs w = w.
Proof.
  intros Hdead. induction evs as [|ev evs IH]; [done|].
  unfold run in *. simpl. by rewrite dispatch_dead.
Qed.

(** A quit key ends the process, whatever the state of an alive world. *)
Lemma quit_exits key w :
  is_quit key →
  exec (onKeypress key) w =
    mkWorld (count w) (set_isGameRunning false (game w))
            (console w ++ [Clear; Log "Thanks for playing!"]) (interval w) (Exited 0).
Proof.
  intros Hq. unfold onKeypress. rewrite exec_bind. unfold this at 1. cbv beta iota zeta.
  rewrite exec_bind.
  assert (name key ≠ Some "left" ∧ name key ≠ Some "right") as [Hl Hr].
  { destruct Hq as [->|[_ ->]]; done. }
  rewrite (bool_decide_eq_false_2 _ Hl), (bool_decide_eq_false_2 _ Hr). cbv beta iota.
  rewrite !andb_false_l.
  assert (bool_decide (name key = Some "q") || ctrl key && bool_decide (name key = Some "c")
          = true) as ->.
  { destruct Hq as [->|[-> ->]]; [done|]. by rewrite orb_true_r. }
  cbv beta iota delta [gameOver mbind Proc_bind update write process_exit].
  cbn [count game console interval status]. by rewrite <-app_assoc.
Qed.

Lemma quit_decide key :
  bool_decide (name key = Some "q") || ctrl key && bool_decide (name key = Some "c") = true
  ↔ is_quit key.
Proof.
  unfold is_quit. rewrite orb_true_iff, andb_true_iff, !bool_decide_eq_true. done.
Qed.

(** The running flag after one event. *)
Lemma dispatch_running ev w :
  isGameRunning (game (dispatch ev w)) =
    match status w, ev with
    | Alive, Keypress key =>
        if bool_decide (name key = Some "q") || ctrl key && bool_decide (name key = Some "c")
        then false else isGameRunning (game w)
    | _, _ => isGameRunning (game w)
    end.
Proof.
  unfold dispatch. destruct (status w); [|done..]. destruct ev as [key|].
  - rewrite onKeypress_game. cbv zeta.
    destruct (bool_decide (name key = Some "q") || _) eqn:Hq.
    + apply quit_decide in Hq.
      assert (name key ≠ Some "left" ∧ name key ≠ Some "right") as [Hl Hr].
      { destruct Hq as [->|[_ ->]]; done. }
      by rewrite (bool_decide_eq_false_2 _ Hl), (bool_decide_eq_false_2 _ Hr).
    + destruct (bool_decide (name key = Some "left") && _); [done|].
      destruct (bool_decide (name key = Some "right") && _); [done|].
      by destruct (bool_decide (name key = Some "space")).
  - destruct (interval w); [|done]. rewrite gameLoop_game.
    destruct (isGameRunning (game w)) eqn:Hrun; [|done].
    destruct (moveBullets_other (moveEnemies (game w))) as (_ & _ & _ & -> & _).
    destruct (moveEnemies_other (game w)) as (_ & _ & _ & -> & _). done.
Qed.

End callbacks.

(** ** What holds in every state of a session *)

Section invariant.

Implicit Types (w : World) (g : SpaceInvaders) (key : Key) (ev : Event).

Lemma session_inv_boot : session_inv (game boot).
Proof.
  unfold session_inv. do 4 (split; [by vm_compute|]). split.
  - intros e He. assert (enemies (game boot) = fst (createEnemies 0)) as Hes by done.
    rewrite Hes in He. vm_compute fst in He.
    repeat (apply elem_of_cons in He as [->|He]; [by vm_compute|]).
    by apply elem_of_nil in He.
  - intros b Hb. by apply elem_of_nil in Hb.
Qed.

Lemma session_inv_moveEnemies g : session_inv g → session_inv (moveEnemies g).
Proof.
  intros Hinv. destruct (decide (enemies g = [])) as [Hnil|Hne].
  { by rewrite moveEnemies_nil. }
  destruct Hinv as (Hw & Hh & Hpy & Hpx & Hes & Hbs).
  destruct (extremes_exist g Hne) as (l & r & Hl & Hr).
  pose proof (moveEnemies_direction g l r Hl Hr) as Hdir.
  pose proof (moveEnemies_enemies g) as Hmv.
  destruct (moveEnemies_other g) as (Hp' & Hw' & Hh' & _ & Hb').
  unfold session_inv. rewrite Hp', Hw', Hh', Hb', Hmv, Hdir.
  do 4 (split; [done|]). split; [|done].
  intros e' He'. apply list_elem_of_fmap in He' as (e & -> & He).
  destruct Hl as [(el & Hel & <-) Hmin], Hr as [(er & Her & <-) Hmax].
  pose proof (Hmin e He). pose proof (Hmax e He).
  pose proof (Hes e He) as (? & ? & HR & HL).
  pose proof (Hes el Hel) as (_ & ? & _ & HLl).
  pose proof (Hes er Her) as (_ & ? & HRr & _).
  rewrite Hw. cbn [Enemy.set_x Enemy.x Enemy.y].
  destruct (enemyDirection g); cbn [step_of flipDirection].
  - specialize (HL eq_refl). specialize (HLl eq_refl).
    destruct (decide (40 - 1 ≤ _ ∨ _)) as [Hc|Hc]; simpl; repeat split; try done; lia.
  - specialize (HR eq_refl). specialize (HRr eq_refl).
    destruct (decide (40 - 1 ≤ _ ∨ _)) as [Hc|Hc]; simpl; repeat split; try done; lia.
Qed.

Lemma session_inv_moveBullets g : session_inv g → session_inv (moveBullets g).
Proof.
  intros (Hw & Hh & Hpy & Hpx & Hes & Hbs).
  destruct (moveBullets_other g) as (Hp' & Hw' & Hh' & _ & Hd').
  unfold session_inv. rewrite Hp', Hw', Hh', Hd'.
  do 4 (split; [done|]). split.
  - intros e He. apply moveBullets_enemies in He as [He _]. by apply Hes.
  - intros b' Hb'. rewrite moveBullets_bullets in Hb'.
    apply list_elem_of_filter in Hb' as [Hy Hb'].
    apply list_elem_of_fmap in Hb' as (b & -> & Hb).
    destruct (Hbs b Hb). cbn in *. lia.
Qed.

Lemma session_inv_onKeypress key w :
  session_inv (game w) → session_inv (game (exec (onKeypress key) w)).
Proof.
  intros (Hw & Hh & Hpy & Hpx & Hes & Hbs). rewrite onKeypress_game. cbv zeta.
  destruct (bool_decide (name key = Some "left") && _) eqn:Hleft;
    [|destruct (bool_decide (name key = Some "right") && _) eqn:Hright;
      [|destruct (bool_decide (name key = Some "q") || _);
        [|destruct (bool_decide (name key = Some "space"))]]].
  - apply andb_true_iff in Hleft as [_ Hx%bool_decide_eq_true].
    unfold session_inv. cbn. split_and!; try done; lia.
  - apply andb_true_iff in Hright as [_ Hx%bool_decide_eq_true].
    unfold session_inv. cbn. split_and!; try done; lia.
  - done.
  - do 5 (split; [done|]). cbn. intros b Hb.
    apply elem_of_app in Hb as [Hb|Hb]; [by apply Hbs|].
    apply list_elem_of_singleton in Hb as ->. cbn. lia.
  - done.
Qed.

Lemma session_inv_dispatch ev w :
  session_inv (game w) → session_inv (game (dispatch ev w)).
Proof.
  intros Hinv. unfold dispatch. destruct (status w); [|done..].
  destruct ev as [key|]; [by apply session_inv_onKeypress|].
  destruct (interval w); [|done]. rewrite gameLoop_game.
  destruct (isGameRunning (game w)); [|done].
  by apply session_inv_moveBullets, session_inv_moveEnemies.
Qed.

Lemma reachable_session_inv w : reachable w → session_inv (game w).
Proof.
  induction 1 as [|w ev _ IH]; [apply session_inv_boot|by apply session_inv_dispatch].
Qed.

Lemma session_inv_onBoard g : session_inv g → onBoard g.
Proof.
  intros (Hw & Hh & Hpy & Hpx & Hes & Hbs). unfold onBoard, inside. rewrite Hw, Hh.
  split; [lia|]. split.
  - intros e He. destruct (Hes e He) as (? & ? & _). lia.
  - intros b Hb. destruct (Hbs b Hb). lia.
Qed.

(** No callback moves the player off its row or resizes the board. *)
Lemma dispatch_player_y ev w :
  Pos.y (player (game (dispatch ev w))) = Pos.y (player (game w)) ∧
  height (game (dispatch ev w)) = height (game w) ∧
  width (game (dispatch ev w)) = width (game w).
Proof.
  unfold dispatch. destruct (status w); [|done..]. destruct ev as [key|].
  - rewrite onKeypress_game. cbv zeta.
    destruct (bool_decide (name key = Some "left") && _); [done|].
    destruct (bool_decide (name key = Some "right") && _); [done|].
    destruct (bool_decide (name key = Some "q") || _); [done|].
    by destruct (bool_decide (name key = Some "space")).
  - destruct (interval w); [|done]. rewrite gameLoop_game.
    destruct (isGameRunning (game w)); [|done].
    destruct (moveBullets_other (moveEnemies (game w))) as (-> & -> & -> & _).
    destruct (moveEnemies_other (game w)) as (-> & -> & -> & _). done.
Qed.

Lemma createBullet_game w :
  game (exec createBullet w) =
    set_bullets (bullets (game w) ++
                 [Bullet.mk (Pos.x (player (game w))) (Pos.y (player (game w)) - 1)
                            BoardCharacter.Bullet (count w + 1)]) (game w).
Proof. done. Qed.

Lemma onKeypress_player_x key w :
  Pos.x (player (game (exec (onKeypress key) w))) =
    let x := Pos.x (player (game w)) in
    if decide (name key = Some "left") then
      if decide (0 < x) then x - 1 else x
    else if decide (name key = Some "right") then
      if decide (x < width (game w) - 1) then x + 1 else x
    else x.
Proof.
  rewrite onKeypress_game. cbv zeta.
  destruct (decide (name key = Some "left")) as [Hl|Hl].
  { rewrite (bool_decide_eq_true_2 _ Hl), andb_true_l.
    assert (name key ≠ Some "right") as Hr by (rewrite Hl; done).
    assert (bool_decide (name key = Some "q")
            || ctrl key && bool_decide (name key = Some "c") = false) as Hq.
    { apply not_true_is_false. rewrite quit_decide. unfold is_quit. rewrite Hl.
      by intros [?|[_ ?]]. }
    assert (name key ≠ Some "space") as Hs by (rewrite Hl; done).
    rewrite (bool_decide_eq_false_2 _ Hr), Hq, (bool_decide_eq_false_2 _ Hs).
    rewrite andb_false_l.
    destruct (decide (0 < _)) as [Hx|Hx];
      [by rewrite bool_decide_eq_true_2|by rewrite bool_decide_eq_false_2]. }
  rewrite (bool_decide_eq_false_2 _ Hl), andb_false_l.
  destruct (decide (name key = Some "right")) as [Hr|Hr].
  { rewrite (bool_decide_eq_true_2 _ Hr), andb_true_l.
    assert (bool_decide (name key = Some "q")
            || ctrl key && bool_decide (name key = Some "c") = false) as Hq.
    { apply not_true_is_false. rewrite quit_decide. unfold is_quit. rewrite Hr.
      by intros [?|[_ ?]]. }
    assert (name key ≠ Some "space") as Hs by (rewrite Hr; done).
    rewrite Hq, (bool_decide_eq_false_2 _ Hs).
    destruct (decide (_ < _)) as [Hx|Hx];
      [by rewrite bool_decide_eq_true_2|by rewrite bool_decide_eq_false_2]. }
  rewrite (bool_decide_eq_false_2 _ Hr), andb_false_l.
  destruct (bool_decide (name key = Some "q") || _); [done|].
  by destruct (bool_decide (name key = Some "space")).
Qed.

Lemma run_reachable evs w : reachable w → reachable (run evs w).
Proof.
  revert w. induction evs as [|ev evs IH]; intros w Hw; [done|].
  apply IH. by constructor.
Qed.

End invariant.

(** C4: in every state the session can reach from its start by ticks and key
    presses in any order, the player, every enemy and every bullet are on
    the board; and a bullet that a tick moves to y = -1 is not in the
    collection when [moveBullets] returns, which is before [render]. *)
Theorem C4_reachable_on_board (w : World) :
  reachable w →
  onBoard (game w) ∧
  (∀ b, b ∈ bullets (game w) → Bullet.y (moved b) = -1 →
        moved b ∉ bullets (moveBullets (moveEnemies (game w)))) ∧
  (∀ b, b ∈ bullets (moveBullets (moveEnemies (game w))) → 0 ≤ Bullet.y b).
Proof.
  intros Hw. split; [by apply session_inv_onBoard, reachable_session_inv|]. split.
  - intros b _ Hy Hin. apply moveBullets_y_nonneg in Hin. lia.
  - intros b. apply moveBullets_y_nonneg.
Qed.

Lemma C4_reachable_on_board_witness :
  onBoard (game (dispatch Timer (dispatch (Keypress key_space) boot))).
Proof.
  apply (C4_reachable_on_board (dispatch Timer (dispatch (Keypress key_space) boot))).
  apply reachable_step, reachable_step, reachable_boot.
Defined.

(** C6: whatever keys are pressed from the start, the player's x stays in
    [0, width - 1]; one key press takes 1 off x only for the left arrow
    with x > 0, adds 1 only for the right arrow with x < width - 1, and
    leaves x alone otherwise. *)
Theorem C6_player_x_clamped :
  (∀ keys : list Key,
     let g := game (run (Keypress <$> keys) boot) in
     0 ≤ Pos.x (player g) ≤ width g - 1) ∧
  (∀ (key : Key) (w : World),
     Pos.x (player (game (exec (onKeypress key) w))) =
       let x := Pos.x (player (game w)) in
       if decide (name key = Some "left") then
         if decide (0 < x) then x - 1 else x
       else if decide (name key = Some "right") then
         if decide (x < width (game w) - 1) then x + 1 else x
       else x).
Proof.
  split; [|apply onKeypress_player_x].
  intros keys g.
  destruct (reachable_session_inv _ (run_reachable (Keypress <$> keys) _ reachable_boot))
    as (Hw & _ & _ & Hx & _).
  fold g in Hw, Hx. lia.
Qed.

(** C9: the running flag goes from running to stopped only on a quit key
    ('q', or 'c' with control), a quit key on a live process always stops it,
    and nothing sets it back; the timer callback on a stopped session moves
    nothing, prints nothing and clears the interval; and once the quit key
    has been handled no later event changes anything. *)
Theorem C9_quit_is_one_way :
  (∀ (w : World) (ev : Event),
     isGameRunning (game w) = true → isGameRunning (game (dispatch ev w)) = false →
     ∃ key, ev = Keypress key ∧ is_quit key) ∧
  (∀ (w : World) (key : Key),
     status w = Alive → is_quit key →
     isGameRunning (game (dispatch (Keypress key) w)) = false ∧
     status (dispatch (Keypress key) w) = Exited 0) ∧
  (∀ (w : World) (ev : Event),
     isGameRunning (game w) = false → isGameRunning (game (dispatch ev w)) = false) ∧
  (∀ w : World,
     isGameRunning (game w) = false →
     exec gameLoop w = mkWorld (count w) (game w) (console w) false (status w)) ∧
  (∀ (w : World) (key : Key) (evs : list Event),
     status w = Alive → is_quit key →
     run evs (dispatch (Keypress key) w) = dispatch (Keypress key) w).
Proof.
  split_and!.
  - intros w ev Hrun. rewrite dispatch_running, Hrun.
    destruct (status w); [|done..]. destruct ev as [key|]; [|done].
    destruct (bool_decide _ || _) eqn:Hq; [|done]. intros _. exists key.
    split; [done|]. by apply quit_decide.
  - intros w key Halive Hq. unfold dispatch. rewrite Halive, quit_exits by done. done.
  - intros w ev Hstop. rewrite dispatch_running, Hstop.
    destruct (status w); [|done..]. destruct ev as [key|]; [|done].
    by destruct (bool_decide _ || _).
  - apply gameLoop_stopped.
  - intros w key evs Halive Hq. apply run_dead.
    unfold dispatch. rewrite Halive, quit_exits by done. done.
Qed.

Lemma C9_quit_is_one_way_witness :
  run [Timer; Keypress key_left; Timer] (dispatch (Keypress key_q) boot)
  = dispatch (Keypress key_q) boot.
Proof.
  apply (proj2 (proj2 (proj2 (proj2 C9_quit_is_one_way)))); [reflexivity|by left].
Defined.

(** C10: the player's y is [height - 1] at the start; no key press, tick or
    [render] changes it, so it is [height - 1] in every state; hence every
    bullet that [createBullet] adds starts at y = [height - 2], in the
    player's column, on the board. *)
Theorem C10_player_row_fixed :
  Pos.y (player (game boot)) = height (game boot) - 1 ∧
  (∀ (w : World) (ev : Event),
     Pos.y (player (game (dispatch ev w))) = Pos.y (player (game w))) ∧
  (∀ w : World, game (exec render w) = game w) ∧
  (∀ w : World, reachable w → Pos.y (player (game w)) = height (game w) - 1) ∧
  (∀ w : World, reachable w →
     ∃ b, bullets (game (exec createBullet w)) = bullets (game w) ++ [b] ∧
          Bullet.x b = Pos.x (player (game w)) ∧
          Bullet.y b = height (game w) - 2 ∧
          inside (game w) (Bullet.x b) (Bullet.y b)).
Proof.
  split_and!.
  - done.
  - intros w ev. apply dispatch_player_y.
  - apply render_game.
  - intros w (Hw & Hh & Hpy & _)%reachable_session_inv. lia.
  - intros w (Hw & Hh & Hpy & Hpx & _)%reachable_session_inv.
    eexists. rewrite createBullet_game. split; [reflexivity|].
    unfold inside. cbn. lia.
Qed.

Lemma C10_player_row_fixed_witness :
  ∃ b, bullets (game (exec createBullet boot)) = bullets (game boot) ++ [b] ∧
       Bullet.x b = Pos.x (player (game boot)) ∧
       Bullet.y b = height (game boot) - 2 ∧
       inside (game boot) (Bullet.x b) (Bullet.y b).
Proof.
  apply (proj2 (proj2 (proj2 (proj2 C10_player_row_fixed)))). apply reachable_boot.
Defined.

(** ** Arrays and grids *)

Section arrays.

Context {A : Type}.
Implicit Types (a : JS.array A) (v : option A).

Lemma get_lookup a i :
  0 ≤ i → (Z.to_nat i < length a)%nat → ∃ v, a !! Z.to_nat i = Some v ∧ JS.get a i = v.
Proof.
  intros Hi Hlt. destruct (lookup_lt_is_Some_2 a _ Hlt) as [v Hv]. exists v.
  split; [done|]. unfold JS.get. rewrite bool_decide_eq_true_2 by done. by rewrite Hv.
Qed.

Lemma get_in_range a i x : JS.get a i = Some x → 0 ≤ i ∧ (Z.to_nat i < length a)%nat.
Proof.
  unfold JS.get. case_bool_decide; [|done]. intros Hget. split; [done|].
  apply lookup_lt_is_Some. destruct (a !! Z.to_nat i); [done|discriminate].
Qed.

Lemma length_set a i v :
  0 ≤ i → (Z.to_nat i < length a)%nat → length (JS.set a i v) = length a.
Proof.
  intros Hi Hlt. unfold JS.set.
  rewrite (bool_decide_eq_false_2 (i < 0)), bool_decide_eq_true_2 by lia. apply length_insert.
Qed.

Lemma get_set_eq a i v :
  0 ≤ i → (Z.to_nat i < length a)%nat → JS.get (JS.set a i v) i = v.
Proof.
  intros Hi Hlt. unfold JS.set, JS.get.
  rewrite (bool_decide_eq_false_2 (i < 0)), !bool_decide_eq_true_2 by lia.
  by rewrite list_lookup_insert_eq.
Qed.

Lemma get_set_ne a i k v :
  0 ≤ i → (Z.to_nat i < length a)%nat → i ≠ k → JS.get (JS.set a i v) k = JS.get a k.
Proof.
  intros Hi Hlt Hne. unfold JS.set, JS.get.
  rewrite (bool_decide_eq_false_2 (i < 0)) by lia.
  rewrite (bool_decide_eq_true_2 (Z.to_nat i < length a)%nat) by lia.
  case_bool_decide; [|done]. rewrite list_lookup_insert_ne by lia. done.
Qed.

End arrays.

Section grids.

Implicit Types (board : Board) (f : Z → Z → string).

Lemma shows_ext H W board f f' :
  (∀ i j, 0 ≤ i < H → 0 ≤ j < W → f i j = f' i j) →
  shows H W board f → shows H W board f'.
Proof.
  intros Hext [Hlen Hrows]. split; [done|]. intros i Hi.
  destruct (Hrows i Hi) as (row & Hrow & Hrlen & Hcells). exists row.
  split_and!; [done..|]. intros j Hj. rewrite <-Hext by done. by apply Hcells.
Qed.

Lemma map_replicate {A B} (f : A → option B) (n : nat) (v : A) (r : B) :
  f v = Some r → JS.map f (replicate n (Some v)) = Some (replicate n (Some r)).
Proof.
  intros Hf. unfold JS.map. induction n as [|n IH]; [done|].
  cbn. rewrite Hf. cbn. by rewrite IH.
Qed.

Lemma succeeds_bind {A B} (m : option A) (k : A → option B) (Q : B → Prop) :
  succeeds m (λ a, succeeds (k a) Q) → succeeds (m ≫= k) Q.
Proof. intros (a & -> & HQ). done. Qed.

Lemma succeeds_mono {A} (m : option A) (Q Q' : A → Prop) :
  succeeds m Q → (∀ a, Q a → Q' a) → succeeds m Q'.
Proof. intros (a & -> & HQ) Himp. exists a. auto. Qed.

Lemma blank_shows H W bg :
  0 ≤ H → 0 ≤ W → succeeds (blank H W bg) (λ board, shows H W board (λ _ _, bg)).
Proof.
  intros HH HW. exists (replicate (Z.to_nat H) (Some (replicate (Z.to_nat W) (Some bg)))).
  split.
  - unfold blank, JS.Array_fill. rewrite !bool_decide_eq_true_2 by done.
    cbn [mbind option_bind]. by apply map_replicate.
  - split; [by rewrite length_replicate|]. intros i Hi. eexists. split_and!.
    + unfold JS.get. rewrite bool_decide_eq_true_2 by lia.
      rewrite lookup_replicate_2 by lia. done.
    + by rewrite length_replicate.
    + intros j Hj. unfold JS.get. rewrite bool_decide_eq_true_2 by lia.
      rewrite lookup_replicate_2 by lia. done.
Qed.

Lemma put_shows H W board f i j c :
  shows H W board f → 0 ≤ i < H → 0 ≤ j < W →
  succeeds (put board i j (Some c)) (λ board', shows H W board' (upd f i j c)).
Proof.
  intros [Hlen Hrows] Hi Hj.
  destruct (Hrows i Hi) as (row & Hrow & Hrlen & Hcells).
  eexists. split; [unfold put; rewrite Hrow; reflexivity|].
  destruct (get_in_range _ _ _ Hrow) as [_ Hilt].
  split; [by rewrite length_set by lia|]. intros i' Hi'. unfold upd.
  destruct (decide (i' = i)) as [->|Hne].
  - eexists. split_and!.
    + by apply get_set_eq; [lia|].
    + rewrite length_set by lia. done.
    + intros j' Hj'. destruct (decide (j' = j)) as [->|Hnej].
      * rewrite decide_True by done. apply get_set_eq; lia.
      * rewrite decide_False by tauto. rewrite get_set_ne by lia. by apply Hcells.
  - destruct (Hrows i' Hi') as (row' & Hrow' & Hrlen' & Hcells'). exists row'.
    split_and!; [by rewrite get_set_ne by lia|done|].
    intros j' Hj'. rewrite decide_False by tauto. by apply Hcells'.
Qed.

Lemma at_shows H W board f i j :
  shows H W board f → 0 ≤ i < H → 0 ≤ j < W → at_ board i j = Some (Some (f i j)).
Proof.
  intros [_ Hrows] Hi Hj. destruct (Hrows i Hi) as (row & Hrow & _ & Hcells).
  unfold at_. rewrite Hrow. simpl. by rewrite Hcells.
Qed.

(** The rule for counting loops: an invariant that holds on entry and is
    carried over each round holds on exit, and the loop does not throw. *)
Lemma for_invariant {St} (P : Z → St → Prop) (n : Z) (body : Z → St → option St) (s : St) :
  0 ≤ n → P 0 s →
  (∀ i s, 0 ≤ i < n → P i s → succeeds (body i s) (P (i + 1))) →
  succeeds (for_ n body s) (P n).
Proof.
  intros Hn H0 Hstep. unfold for_, succeeds.
  assert (∀ (k : nat) m s, 0 ≤ m → m + Z.of_nat k = n → P m s →
            ∃ s', foldl (λ acc i, acc ≫= body i) (Some s) (seqZ m (Z.of_nat k)) = Some s'
                  ∧ P n s') as Hgen.
  { induction k as [|k IH]; intros m s0 Hm Hmk Hs0.
    - exists s0. split; [done|]. by replace n with m by lia.
    - rewrite seqZ_cons by lia. simpl.
      destruct (Hstep m s0) as (s1 & -> & Hs1); [lia|done|].
      replace (Z.pred (Z.of_nat (S k))) with (Z.of_nat k) by lia.
      apply IH; [lia|lia|]. by replace (Z.succ m) with (m + 1) by lia. }
  destruct (Hgen (Z.to_nat n) 0 s) as (s' & Hs' & HP); [lia|lia|done|].
  exists s'. split; [|done]. by rewrite Z2Nat.id in Hs' by done.
Qed.

Lemma forEach_cons {X St} (x : X) (xs : list X) (body : X → St → option St) s s1 :
  body x s = Some s1 → forEach (x :: xs) body s = forEach xs body s1.
Proof. intros Hx. unfold forEach. simpl. by rewrite Hx. Qed.

Lemma last_at_cons `{HasXY X} (x y : Z) (a : X) (l : list X) :
  last_at x y (a :: l) =
    match last_at x y l with
    | Some a' => Some a'
    | None => if decide (getX a = x ∧ getY a = y) then Some a else None
    end.
Proof.
  unfold last_at. rewrite filter_cons. case_decide; [by rewrite last_cons|].
  by destruct (last _).
Qed.

Lemma last_at_elem `{HasXY X} (x y : Z) (a : X) (l : list X) :
  last_at x y l = Some a → a ∈ l ∧ getX a = x ∧ getY a = y.
Proof.
  unfold last_at. intros Hl%last_Some_elem_of. apply list_elem_of_filter in Hl. tauto.
Qed.

(** Drawing a list of entities, one after the other, each on its cell. *)
Lemma forEach_put_shows {X : Type} {HX : HasXY X} (ch : X → string) H W (xs : list X) board f :
  shows H W board f →
  (∀ a, a ∈ xs → 0 ≤ getX a < W ∧ 0 ≤ getY a < H) →
  succeeds (forEach xs (λ a board, put board (getY a) (getX a) (Some (ch a))) board)
    (λ board', shows H W board'
       (λ i j, match last_at j i xs with
               | Some a => ch a
               | None => f i j
               end)).
Proof.
  revert board f. induction xs as [|a xs IH]; intros board f Hs Hin.
  - exists board. done.
  - destruct (put_shows _ _ _ _ (getY a) (getX a) (ch a) Hs) as (b1 & Hb1 & Hs1);
      [apply Hin; left..|].
    rewrite (forEach_cons _ _ _ _ _ Hb1).
    eapply succeeds_mono; [apply (IH _ _ Hs1); intros; apply Hin; by right|].
    intros b2. apply shows_ext. intros i j _ _. rewrite last_at_cons.
    destruct (last_at j i xs); [done|]. unfold upd.
    repeat case_decide; try done; lia.
Qed.

Lemma drawBaseBoard_shows g :
  onBoard g →
  succeeds (drawBaseBoard g)
    (λ base, shows (height g) (width g) base (λ i j, interior g j i)).
Proof.
  intros ([Hpx Hpy] & Hes & Hbs).
  unfold drawBaseBoard, createBaseBoard, renderEnemies, renderBullets.
  apply succeeds_bind. eapply succeeds_mono; [apply blank_shows; lia|].
  intros b0 Hs0. cbv beta in Hs0. apply succeeds_bind.
  assert (∀ e, e ∈ enemies g → 0 ≤ getX e < width g ∧ 0 ≤ getY e < height g) as Hes'
    by (intros e He; apply (Hes e He)).
  refine (succeeds_mono _ _ _
            (forEach_put_shows Enemy.character _ _ (enemies g) _ _ Hs0 Hes') _).
  intros b1 Hs1. cbv beta in Hs1. apply succeeds_bind.
  assert (∀ b, b ∈ bullets g → 0 ≤ getX b < width g ∧ 0 ≤ getY b < height g) as Hbs'
    by (intros b Hb; apply (Hbs b Hb)).
  refine (succeeds_mono _ _ _
            (forEach_put_shows Bullet.character _ _ (bullets g) _ _ Hs1 Hbs') _).
  intros b2 Hs2. cbv beta in Hs2.
  eapply succeeds_mono; [by apply (put_shows _ _ _ _ _ _ _ Hs2)|].
  intros b3. apply shows_ext. intros i j _ _. unfold upd, interior.
  repeat case_decide; try done; lia.
Qed.

Lemma createFullBoard_shows g base inner :
  0 ≤ height g → 0 ≤ width g →
  shows (height g) (width g) base inner →
  succeeds (createFullBoard g base)
    (λ full, shows (height g + 2) (width g + 2) full (frame_of (height g) (width g) inner)).
Proof.
  intros Hh Hw Hbase. unfold createFullBoard. cbv zeta.
  generalize dependent (height g). generalize dependent (width g). intros w Hw h Hh Hbase.
  apply succeeds_bind. eapply succeeds_mono; [apply blank_shows; lia|].
  intros b0 Hs0. cbv beta in Hs0. unfold BoardCharacter.FullBoardBackground in Hs0.
  (* the two vertical borders *)
  apply succeeds_bind.
  eapply succeeds_mono;
    [apply (for_invariant (λ i b, shows (h + 2) (w + 2) b
              (λ r c, if decide (r < i ∧ (c = 0 ∨ c = w + 1)) then "│" else "y")));
     [lia| |]|].
  { revert Hs0. apply shows_ext. cells. }
  { intros i b Hi Hs. apply succeeds_bind.
    eapply succeeds_mono; [apply (put_shows _ _ _ _ i 0 "│" Hs); lia|].
    intros b' Hs'. cbv beta in Hs'.
    eapply succeeds_mono; [apply (put_shows _ _ _ _ i (w + 2 - 1) "│" Hs'); lia|].
    intros b''. apply shows_ext. cells. }
  intros b1 Hs1. cbv beta in Hs1.
  (* the two horizontal borders *)
  apply succeeds_bind.
  eapply succeeds_mono;
    [apply (for_invariant (λ i b, shows (h + 2) (w + 2) b
              (λ r c, if decide (c < i ∧ (r = 0 ∨ r = h + 1)) then "─"
                      else if decide (c = 0 ∨ c = w + 1) then "│" else "y")));
     [lia| |]|].
  { revert Hs1. apply shows_ext. cells. }
  { intros i b Hi Hs. apply succeeds_bind.
    eapply succeeds_mono; [apply (put_shows _ _ _ _ 0 i "─" Hs); lia|].
    intros b' Hs'. cbv beta in Hs'.
    eapply succeeds_mono; [apply (put_shows _ _ _ _ (h + 2 - 1) i "─" Hs'); lia|].
    intros b''. apply shows_ext. cells. }
  intros b2 Hs2. cbv beta in Hs2.
  (* the four corners *)
  apply succeeds_bind.
  eapply succeeds_mono; [apply (put_shows _ _ _ _ 0 0 "┌" Hs2); lia|].
  intros b3 Hs3. cbv beta in Hs3. apply succeeds_bind.
  eapply succeeds_mono; [apply (put_shows _ _ _ _ 0 (w + 2 - 1) "┐" Hs3); lia|].
  intros b4 Hs4. cbv beta in Hs4. apply succeeds_bind.
  eapply succeeds_mono; [apply (put_shows _ _ _ _ (h + 2 - 1) 0 "└" Hs4); lia|].
  intros b5 Hs5. cbv beta in Hs5. apply succeeds_bind.
  eapply succeeds_mono; [apply (put_shows _ _ _ _ (h + 2 - 1) (w + 2 - 1) "┘" Hs5); lia|].
  intros b6 Hs6. cbv beta in Hs6.
  assert (shows (h + 2) (w + 2) b6
            (λ r c, if decide (1 ≤ r < h + 1 ∧ 1 ≤ c < w + 1) then "y"
                    else frame_of h w inner r c)) as Hframe.
  { revert Hs6. apply shows_ext. cells. }
  clear Hs0 Hs1 Hs2 Hs3 Hs4 Hs5 Hs6.
  (* the base board, row by row *)
  eapply succeeds_mono;
    [apply (for_invariant (λ i b, shows (h + 2) (w + 2) b
              (λ r c, if decide (i + 1 ≤ r < h + 1 ∧ 1 ≤ c < w + 1) then "y"
                      else frame_of h w inner r c)));
     [lia| |]|].
  { revert Hframe. apply shows_ext. cells. }
  { intros i b Hi Hs.
    eapply succeeds_mono;
      [apply (for_invariant (λ j b, shows (h + 2) (w + 2) b
                (λ r c, if decide ((i + 2 ≤ r < h + 1 ∧ 1 ≤ c < w + 1)
                                   ∨ (r = i + 1 ∧ j + 1 ≤ c < w + 1)) then "y"
                        else frame_of h w inner r c)));
       [lia| |]|].
    - revert Hs. apply shows_ext. cells.
    - intros j b' Hj Hs'. rewrite (at_shows _ _ _ _ i j Hbase) by lia.
      cbn [mbind option_bind].
      eapply succeeds_mono; [apply (put_shows _ _ _ _ (i + 1) (j + 1) (inner i j) Hs'); lia|].
      intros b''. apply shows_ext. cells.
    - intros b'. apply shows_ext. cells. }
  intros full. apply shows_ext. cells.
Qed.

Lemma last_at_None {X : Type} {HX : HasXY X} (x y : Z) (l : list X) :
  last_at x y l = None ↔ ∀ a, a ∈ l → ¬ (getX a = x ∧ getY a = y).
Proof.
  unfold last_at. rewrite last_None. split.
  - intros Hnil a Ha Hxy. by apply (filter_nil_not_elem_of _ l a Hnil Hxy).
  - intros Hno. apply elem_of_nil_inv. intros a [Hxy Ha]%list_elem_of_filter.
    by eapply Hno.
Qed.

(** The four cases of an interior cell, one by one. *)
Lemma interior_cases g x y :
  (Pos.x (player g) = x ∧ Pos.y (player g) = y → interior g x y = BoardCharacter.Player) ∧
  (¬ (Pos.x (player g) = x ∧ Pos.y (player g) = y) →
   (∀ b, b ∈ bullets g → Bullet.x b = x → Bullet.y b = y →
      ∃ b', b' ∈ bullets g ∧ Bullet.x b' = x ∧ Bullet.y b' = y ∧
            interior g x y = Bullet.character b') ∧
   ((∀ b, b ∈ bullets g → ¬ (Bullet.x b = x ∧ Bullet.y b = y)) →
      (∀ e, e ∈ enemies g → Enemy.x e = x → Enemy.y e = y →
         ∃ e', e' ∈ enemies g ∧ Enemy.x e' = x ∧ Enemy.y e' = y ∧
               interior g x y = Enemy.character e') ∧
      ((∀ e, e ∈ enemies g → ¬ (Enemy.x e = x ∧ Enemy.y e = y)) →
         interior g x y = BoardCharacter.BaseBoardBackground))).
Proof.
  unfold interior. split; [intros Hp; by rewrite decide_True|].
  intros Hp. rewrite decide_False by done. split.
  - intros b Hb Hx Hy. destruct (last_at x y (bullets g)) as [b'|] eqn:Hlast.
    + apply last_at_elem in Hlast as (? & ? & ?). by exists b'.
    + destruct (proj1 (last_at_None _ _ _) Hlast b Hb). done.
  - intros Hnob. rewrite (proj2 (last_at_None (HX:=Bullet.hasXY) x y (bullets g)) Hnob). split.
    + intros e He Hx Hy. destruct (last_at x y (enemies g)) as [e'|] eqn:Hlast.
      * apply last_at_elem in Hlast as (? & ? & ?). by exists e'.
      * destruct (proj1 (last_at_None _ _ _) Hlast e He). done.
    + intros Hnoe. by rewrite (proj2 (last_at_None (HX:=Enemy.hasXY) x y (enemies g)) Hnoe).
Qed.

Lemma framed_single g i j : single_glyphs g → JS.length (framed g i j) = 1%nat.
Proof.
  intros [Hes Hbs]. unfold framed, frame_of. cbv zeta.
  repeat case_decide; try reflexivity. unfold interior.
  case_decide; [reflexivity|].
  destruct (last_at _ _ (bullets g)) as [b|] eqn:Hb.
  { apply last_at_elem in Hb as [Hb _]. by apply Hbs. }
  destruct (last_at _ _ (enemies g)) as [e|] eqn:He; [|reflexivity].
  apply last_at_elem in He as [He _]. by apply Hes.
Qed.

(** A grid that shows [f] is the table of [f]. *)
Lemma shows_table H W board f :
  shows H W board f →
  board = (λ i, Some ((λ j, Some (f i j)) <$> seqZ 0 W)) <$> seqZ 0 H.
Proof.
  intros [Hlen Hrows]. apply list_eq. intros k. rewrite list_lookup_fmap.
  destruct (decide (Z.of_nat k < H)) as [Hk|Hk].
  - rewrite lookup_seqZ_lt by done. cbn [fmap option_fmap option_map].
    destruct (Hrows (Z.of_nat k)) as (row & Hrow & Hrlen & Hcells); [lia|].
    destruct (get_lookup board (Z.of_nat k)) as (v & Hv & Hget); [lia|lia|].
    rewrite Nat2Z.id in Hv. rewrite Hv. rewrite Hrow in Hget. subst v. do 2 f_equal.
    apply list_eq. intros m. rewrite list_lookup_fmap.
    destruct (decide (Z.of_nat m < W)) as [Hm|Hm].
    + rewrite lookup_seqZ_lt by done. cbn [fmap option_fmap option_map].
      destruct (get_lookup row (Z.of_nat m)) as (c & Hc & Hgetc); [lia|lia|].
      rewrite Nat2Z.id in Hc. rewrite Hc. rewrite Hcells in Hgetc by lia. by subst c.
    + rewrite lookup_seqZ_ge by lia. cbn. apply lookup_ge_None. lia.
  - rewrite lookup_seqZ_ge by lia. cbn. apply lookup_ge_None. lia.
Qed.

Lemma join_cells (cells : list string) : JS.join (Some <$> cells) = String.concat "" cells.
Proof. unfold JS.join. rewrite <-list_fmap_compose. by rewrite list_fmap_id. Qed.

Lemma boardText_shows H W board f :
  shows H W board f →
  boardText board
  = String.concat newline ((λ i, String.concat "" ((λ j, f i j) <$> seqZ 0 W)) <$> seqZ 0 H).
Proof.
  intros ->%shows_table. unfold boardText. f_equal.
  change (List.map ?g ?l) with (g <$> l). rewrite <-list_fmap_compose.
  apply list_fmap_ext. intros _ i _. cbn [compose from_option].
  by rewrite (list_fmap_compose (λ j, f i j) Some), join_cells.
Qed.

(** [render] on a session whose entities are on the board. *)
Lemma render_shows w :
  onBoard (game w) →
  ∃ full,
    exec render w = mkWorld (count w) (game w) (console w ++ rendered (game w) full)
                            (interval w) (status w) ∧
    shows (height (game w) + 2) (width (game w) + 2) full (framed (game w)).
Proof.
  intros Hon.
  destruct (drawBaseBoard_shows _ Hon) as (base & Hbase & Hsb).
  destruct Hon as ([Hpx Hpy] & _).
  assert (0 ≤ height (game w)) as Hh by lia. assert (0 ≤ width (game w)) as Hw by lia.
  destruct (createFullBoard_shows _ base _ Hh Hw Hsb) as (full & Hfull & Hsf).
  exists full. split; [|done].
  unfold render. rewrite exec_bind. cbv beta iota delta [write].
  rewrite exec_bind. cbv beta iota delta [this]. cbn [game].
  rewrite exec_bind, Hbase. cbv beta iota delta [orThrow].
  rewrite exec_bind. cbv beta iota delta [write].
  rewrite exec_bind. cbn [game]. rewrite Hfull. cbv beta iota delta [orThrow].
  rewrite exec_bind. cbv beta iota delta [write]. unfold exec. cbn [snd count game console interval status].
  unfold rendered. by rewrite <-!app_assoc.
Qed.

(** The same, naming the two grids that [render] builds on the way. *)
Lemma render_pinned w :
  onBoard (game w) →
  ∃ base full,
    drawBaseBoard (game w) = Some base ∧
    createFullBoard (game w) base = Some full ∧
    exec render w = mkWorld (count w) (game w) (console w ++ rendered (game w) full)
                            (interval w) (status w) ∧
    shows (height (game w) + 2) (width (game w) + 2) full (framed (game w)).
Proof.
  intros Hon.
  destruct (drawBaseBoard_shows _ Hon) as (base & Hbase & Hsb).
  destruct Hon as ([Hpx Hpy] & _).
  assert (0 ≤ height (game w)) as Hh by lia. assert (0 ≤ width (game w)) as Hw by lia.
  destruct (createFullBoard_shows _ base _ Hh Hw Hsb) as (full & Hfull & Hsf).
  exists base, full. split_and!; [done..| |done].
  unfold render. rewrite exec_bind. cbv beta iota delta [write].
  rewrite exec_bind. cbv beta iota delta [this]. cbn [game].
  rewrite exec_bind, Hbase. cbv beta iota delta [orThrow].
  rewrite exec_bind. cbv beta iota delta [write].
  rewrite exec_bind. cbn [game]. rewrite Hfull. cbv beta iota delta [orThrow].
  rewrite exec_bind. cbv beta iota delta [write]. unfold exec.
  cbn [snd count game console interval status].
  unfold rendered. by rewrite <-!app_assoc.
Qed.

End grids.




(** ** Sessions never throw *)

Section liveness.

Implicit Types (w : World) (g : SpaceInvaders) (key : Key) (ev : Event).

Lemma render_status w : onBoard (game w) → status (exec render w) = status w.
Proof. intros Hon. destruct (render_shows w Hon) as (full & -> & _). done. Qed.

(** A key press, seen from the whole process. *)
Lemma onKeypress_world key w :
  exec (onKeypress key) w =
    let g := game w in
    let after f := mkWorld (count w) (f g) (console w) (interval w) (status w) in
    if bool_decide (name key = Some "left") && bool_decide (0 < Pos.x (player g)) then
      exec render (after (set_player (Pos.mk (Pos.x (player g) - 1) (Pos.y (player g)))))
    else if bool_decide (name key = Some "right")
            && bool_decide (Pos.x (player g) < width g - 1) then
      exec render (after (set_player (Pos.mk (Pos.x (player g) + 1) (Pos.y (player g)))))
    else if bool_decide (name key = Some "q")
            || (ctrl key && bool_decide (name key = Some "c")) then
      mkWorld (count w) (set_isGameRunning false g)
              ((console w ++ [Clear]) ++ [Log "Thanks for playing!"]) (interval w) (Exited 0)
    else if bool_decide (name key = Some "space") then
      exec render (exec createBullet w)
    else exec render w.
Proof.
  unfold onKeypress. rewrite exec_bind. unfold this at 1. cbv beta iota zeta.
  rewrite exec_bind.
  destruct (bool_decide (name key = Some "left") && _);
    [|destruct (bool_decide (name key = Some "right") && _);
      [|destruct (bool_decide (name key = Some "q") || _);
        [|destruct (bool_decide (name key = Some "space"))]]];
    reflexivity.
Qed.

Lemma onKeypress_status key w :
  session_inv (game w) →
  status (exec (onKeypress key) w) = status w ∨ status (exec (onKeypress key) w) = Exited 0.
Proof.
  intros Hinv. pose proof (session_inv_onKeypress key w Hinv) as Hinv'.
  apply session_inv_onBoard in Hinv'. rewrite onKeypress_game in Hinv'.
  rewrite onKeypress_world. cbv zeta in *.
  destruct (bool_decide (name key = Some "left") && _);
    [|destruct (bool_decide (name key = Some "right") && _);
      [|destruct (bool_decide (name key = Some "q") || _);
        [|destruct (bool_decide (name key = Some "space"))]]].
  - left. by rewrite render_status.
  - left. by rewrite render_status.
  - by right.
  - left. by rewrite render_status.
  - left. by rewrite render_status.
Qed.

Lemma gameLoop_status w : session_inv (game w) → status (exec gameLoop w) = status w.
Proof.
  intros Hinv. unfold gameLoop. rewrite exec_bind. unfold this at 1. cbv beta iota zeta.
  destruct (isGameRunning (game w)); [|done]. cbn [negb].
  do 2 (rewrite exec_bind; cbv beta iota delta [update]).
  rewrite render_status; [done|]. cbn [game].
  by apply session_inv_onBoard, session_inv_moveBullets, session_inv_moveEnemies.
Qed.

(** A session is alive until it is quit; no callback ever throws. *)
Lemma reachable_status w : reachable w → status w = Alive ∨ status w = Exited 0.
Proof.
  induction 1 as [|w ev Hw IH]; [by left|].
  pose proof (reachable_session_inv w Hw) as Hinv.
  unfold dispatch. destruct (status w) eqn:Hst; [|by rewrite Hst..].
  destruct ev as [key|].
  - destruct (onKeypress_status key w Hinv) as [->| ->]; rewrite ?Hst; auto.
  - destruct (interval w); [|rewrite Hst; auto]. rewrite gameLoop_status, Hst by done. auto.
Qed.



Lemma built_glyphs_single g : built_glyphs g → single_glyphs g.
Proof.
  intros [Hes Hbs]. split; [intros e He; by rewrite Hes|intros b Hb; by rewrite Hbs].
Qed.


(** The scenario of the specification: one [moveEnemies] from the start
    moves the whole formation one column to the right and keeps the
    direction; a shot from (20,19) starts at (20,18) and is at (20,17) after
    one [moveBullets]. *)
Example scenario_first_move :
  enemies (moveEnemies (game boot)) = shifted 1 (enemies (game boot)) ∧
  enemyDirection (moveEnemies (game boot)) = Right.
Proof. by vm_compute. Qed.

Example scenario_first_shot :
  bullets (game (exec createBullet boot)) = [Bullet.mk 20 18 BoardCharacter.Bullet 25] ∧
  bullets (moveBullets (game (exec createBullet boot)))
  = [Bullet.mk 20 17 BoardCharacter.Bullet 25].
Proof. by vm_compute. Qed.

End liveness.

(** C8: when every entity is on the board (and every glyph is one
    character), [render] does not throw; the grid that [drawBaseBoard] and
    [createFullBoard] build for it has [height + 2] rows of [width + 2]
    cells, each one character: cell (i,j) is [framed (game w) i j], that is,
    the corner and edge glyphs on the frame and, inside, the player's glyph
    on the player's cell, else the glyph of a bullet on that cell, else the
    glyph of an enemy on that cell, else the background
    ([interior_cases]); what is printed is, after the clear and the debug
    line, the rows of that grid, cell after cell, joined by line feeds, and
    then the controls line; and the session after [render] is the session
    before it. *)
Theorem C8_render_grid (w : World) :
  onBoard (game w) → single_glyphs (game w) →
  ∃ base full : Board,
    drawBaseBoard (game w) = Some base ∧
    createFullBoard (game w) base = Some full ∧
    exec render w = mkWorld (count w) (game w) (console w ++ rendered (game w) full)
                            (interval w) (status w) ∧
    console (exec render w)
    = console w ++
      [Clear; Debug (player (game w));
       Log (String.concat (String "010" "")
              ((λ i, String.concat ""
                       ((λ j, framed (game w) i j) <$> seqZ 0 (width (game w) + 2)))
               <$> seqZ 0 (height (game w) + 2)));
       Log (String "010" "Controls: ←/→ to move, Q to quit")] ∧
    game (exec render w) = game w ∧
    length full = Z.to_nat (height (game w) + 2) ∧
    ∀ i, 0 ≤ i < height (game w) + 2 →
      ∃ row, JS.get full i = Some row ∧
             length row = Z.to_nat (width (game w) + 2) ∧
             ∀ j, 0 ≤ j < width (game w) + 2 →
               JS.get row j = Some (framed (game w) i j) ∧
               JS.length (framed (game w) i j) = 1%nat.
Proof.
  intros Hon Hglyphs.
  destruct (render_pinned w Hon) as (base & full & Hbase & Hfull & Hrender & Hshows).
  exists base, full. split_and!; [done..| |apply render_game|apply Hshows|].
  - rewrite Hrender. cbn [console]. unfold rendered.
    by rewrite (boardText_shows _ _ _ _ Hshows).
  - destruct Hshows as [_ Hrows].
    intros i Hi. destruct (Hrows i Hi) as (row & Hrow & Hrlen & Hcells).
    exists row. split_and!; [done..|]. intros j Hj. split; [by apply Hcells|].
    by apply framed_single.
Qed.

Lemma C8_render_grid_witness :
  ∃ base full : Board,
    drawBaseBoard g_hit = Some base ∧
    createFullBoard g_hit base = Some full ∧
    exec render (mkWorld 25 g_hit [] true Alive)
    = mkWorld 25 g_hit ([] ++ rendered g_hit full) true Alive ∧
    console (exec render (mkWorld 25 g_hit [] true Alive))
    = [] ++
      [Clear; Debug (player g_hit);
       Log (String.concat (String "010" "")
              ((λ i, String.concat "" ((λ j, framed g_hit i j) <$> seqZ 0 (40 + 2)))
               <$> seqZ 0 (20 + 2)));
       Log (String "010" "Controls: ←/→ to move, Q to quit")] ∧
    game (exec render (mkWorld 25 g_hit [] true Alive)) = g_hit ∧
    length full = Z.to_nat (20 + 2) ∧
    ∀ i, 0 ≤ i < 20 + 2 →
      ∃ row, JS.get full i = Some row ∧
             length row = Z.to_nat (40 + 2) ∧
             ∀ j, 0 ≤ j < 40 + 2 →
               JS.get row j = Some (framed g_hit i j) ∧
               JS.length (framed g_hit i j) = 1%nat.
Proof.
  apply (C8_render_grid (mkWorld 25 g_hit [] true Alive)).
  - unfold onBoard, inside. cbn. split_and!; try lia.
    + intros e He. apply list_elem_of_singleton in He as ->. cbn. lia.
    + intros b Hb. apply list_elem_of_singleton in Hb as ->. cbn. lia.
  - split; cbn.
    + intros e He. apply list_elem_of_singleton in He as ->. reflexivity.
    + intros b Hb. apply list_elem_of_singleton in Hb as ->. reflexivity.
Defined.

(** * Further properties of the code *)

(** ** Identifiers and the starting formation *)

Section identity.

Implicit Types (w : World) (g : SpaceInvaders) (key : Key) (ev : Event).

Lemma createEnemies_layout c :
  createEnemies c = (formation_enemy c <$> seqZ 0 24, c + 24).
Proof.
  unfold createEnemies, Enemy_new, createId.
  change (seqZ 0 8) with [0;1;2;3;4;5;6;7]. change (seqZ 0 3) with [0;1;2].
  change (seqZ 0 24) with (Z.of_nat <$> seq 0 24).
  cbn [foldl app fmap list_fmap seq]. unfold formation_enemy.
  cbn [Z.of_nat Pos.of_succ_nat Pos.succ Z.mul Pos.mul Z.add Pos.add].
  repeat (f_equal; try lia).
Qed.

(** The timer callback, seen from the whole process. *)
Lemma gameLoop_world w :
  exec gameLoop w =
    if isGameRunning (game w) then
      exec render (mkWorld (count w) (moveBullets (moveEnemies (game w)))
                           (console w) (interval w) (status w))
    else mkWorld (count w) (game w) (console w) false (status w).
Proof.
  unfold gameLoop. rewrite exec_bind. unfold this at 1. cbv beta iota zeta.
  destruct (isGameRunning (game w)); [|done]. cbn [negb].
  by do 2 (rewrite exec_bind; cbv beta iota delta [update]).
Qed.

Lemma moveEnemies_cards g : enemy_card <$> enemies (moveEnemies g) = enemy_card <$> enemies g.
Proof.
  rewrite moveEnemies_enemies. unfold shifted. rewrite <-list_fmap_compose.
  by apply list_fmap_ext.
Qed.

Lemma moveBullets_enemies_sublist g : enemies (moveBullets g) `sublist_of` enemies g.
Proof. unfold moveBullets. cbn. apply sublist_filter. Qed.

Lemma moveBullets_ids_sublist g :
  Bullet.id <$> bullets (moveBullets g) `sublist_of` Bullet.id <$> bullets g.
Proof.
  rewrite moveBullets_bullets.
  trans (Bullet.id <$> (moved <$> bullets g)).
  - apply fmap_sublist, sublist_filter.
  - rewrite <-list_fmap_compose. done.
Qed.

(** One event: the enemies afterwards are some of the enemies before, in
    the same order, each with its id, row and glyph. *)
Lemma dispatch_cards_sublist ev w :
  enemy_card <$> enemies (game (dispatch ev w)) `sublist_of` enemy_card <$> enemies (game w).
Proof.
  unfold dispatch. destruct (status w); [|done..]. destruct ev as [key|].
  - rewrite onKeypress_game. cbv zeta.
    destruct (bool_decide (name key = Some "left") && _); [done|].
    destruct (bool_decide (name key = Some "right") && _); [done|].
    destruct (bool_decide (name key = Some "q") || _); [done|].
    by destruct (bool_decide (name key = Some "space")).
  - destruct (interval w); [|done]. rewrite gameLoop_game.
    destruct (isGameRunning (game w)); [|done].
    rewrite <-(moveEnemies_cards (game w)). apply fmap_sublist, moveBullets_enemies_sublist.
Qed.

Lemma tick_ids_sublist g : ids (moveBullets (moveEnemies g)) `sublist_of` ids g.
Proof.
  unfold ids. apply sublist_app.
  - trans (Enemy.id <$> enemies (moveEnemies g)).
    + apply fmap_sublist, moveBullets_enemies_sublist.
    + rewrite moveEnemies_enemies. unfold shifted. by rewrite <-list_fmap_compose.
  - etrans; [apply moveBullets_ids_sublist|].
    by destruct (moveEnemies_other g) as (_ & _ & _ & _ & ->).
Qed.

Lemma createBullet_count w : count (exec createBullet w) = count w + 1.
Proof. done. Qed.

Lemma ids_dispatch ev w :
  0 ≤ count w ∧ NoDup (ids (game w)) ∧ (∀ i, i ∈ ids (game w) → 1 ≤ i ≤ count w) →
  0 ≤ count (dispatch ev w) ∧ NoDup (ids (game (dispatch ev w))) ∧
  (∀ i, i ∈ ids (game (dispatch ev w)) → 1 ≤ i ≤ count (dispatch ev w)).
Proof.
  intros (Hc & Hnd & Hrange). unfold dispatch. destruct (status w); [|done..].
  destruct ev as [key|].
  - rewrite onKeypress_world. cbv zeta.
    destruct (bool_decide (name key = Some "left") && _);
      [|destruct (bool_decide (name key = Some "right") && _);
        [|destruct (bool_decide (name key = Some "q") || _);
          [|destruct (bool_decide (name key = Some "space"))]]].
    + by destruct (render_frame (mkWorld (count w) (set_player
        (Pos.mk (Pos.x (player (game w)) - 1) (Pos.y (player (game w)))) (game w))
        (console w) (interval w) (status w))) as (-> & -> & _).
    + by destruct (render_frame (mkWorld (count w) (set_player
        (Pos.mk (Pos.x (player (game w)) + 1) (Pos.y (player (game w)))) (game w))
        (console w) (interval w) (status w))) as (-> & -> & _).
    + done.
    + destruct (render_frame (exec createBullet w)) as (-> & -> & _).
      rewrite createBullet_game, createBullet_count. unfold ids.
      cbn [enemies bullets set_bullets]. rewrite fmap_app, app_assoc.
      cbn [fmap list_fmap Bullet.id]. fold (ids (game w)). split_and!.
      * lia.
      * apply NoDup_app. split_and!; [done| |apply NoDup_singleton].
        intros i Hi ->%list_elem_of_singleton. apply Hrange in Hi. lia.
      * intros i [Hi| ->%list_elem_of_singleton]%elem_of_app; [|lia].
        apply Hrange in Hi. lia.
    + by destruct (render_frame w) as (-> & -> & _).
  - destruct (interval w); [|done]. rewrite gameLoop_world.
    destruct (isGameRunning (game w)); [|done].
    destruct (render_frame (mkWorld (count w) (moveBullets (moveEnemies (game w)))
                (console w) (interval w) (status w))) as (-> & -> & _).
    cbn [game count]. split_and!; [done| |].
    + eapply sublist_NoDup; [done|apply tick_ids_sublist].
    + intros i Hi. apply Hrange. eapply elem_of_sublist; [done|apply tick_ids_sublist].
Qed.

Lemma ids_boot :
  0 ≤ count boot ∧ NoDup (ids (game boot)) ∧ ∀ i, i ∈ ids (game boot) → 1 ≤ i ≤ count boot.
Proof.
  assert (ids (game boot) = seqZ 1 24) as -> by by vm_compute.
  assert (count boot = 24) as -> by by vm_compute.
  split_and!; [done|apply NoDup_seqZ|]. intros i Hi%elem_of_seqZ. lia.
Qed.

Lemma reachable_ids w :
  reachable w →
  0 ≤ count w ∧ NoDup (ids (game w)) ∧ ∀ i, i ∈ ids (game w) → 1 ≤ i ≤ count w.
Proof.
  induction 1 as [|w ev _ IH]; [apply ids_boot|by apply ids_dispatch].
Qed.

Lemma reachable_enemy_rows w e :
  reachable w → e ∈ enemies (game w) → Enemy.y e = 1 ∨ Enemy.y e = 3 ∨ Enemy.y e = 5.
Proof.
  intros Hw. revert e. induction Hw as [|w ev _ IH]; intros e He.
  - assert (enemies (game boot) = fst (createEnemies 0)) as Hes by done.
    rewrite Hes, createEnemies_layout in He. cbn [fst] in He.
    apply list_elem_of_fmap in He as (k & -> & Hk%elem_of_seqZ). cbn.
    assert (0 ≤ k `div` 8 < 3) by (split; [apply Z.div_pos|apply Z.div_lt_upper_bound]; lia).
    lia.
  - assert (enemy_card e ∈ enemy_card <$> enemies (game w)) as Hc.
    { eapply elem_of_sublist; [|apply dispatch_cards_sublist].
      apply list_elem_of_fmap. eauto. }
    apply list_elem_of_fmap in Hc as (e0 & Heq & He0). injection Heq as _ -> _.
    by apply IH.
Qed.

End identity.

(** X1: the coordinate strings of two objects are the same string exactly
    when the objects have the same x and the same y; so the test
    [bulletCoordinates.has(getCoordinate(e))] is a test on positions. *)
Theorem X1_coordinate_string_is_position `{HasXY A} `{HasXY B} (a : A) (b : B) :
  getCoordinate a = getCoordinate b ↔ getX a = getX b ∧ getY a = getY b.
Proof. apply getCoordinate_inj. Qed.

(** X2: in every state of a session the ids of all enemies and bullets are
    pairwise different, and each lies between 1 and the current value of
    the id counter. *)
Theorem X2_ids_unique (w : World) :
  reachable w →
  NoDup (ids (game w)) ∧ ∀ i, i ∈ ids (game w) → 1 ≤ i ≤ count w.
Proof. intros Hw. by destruct (reachable_ids w Hw) as (_ & ? & ?). Qed.

Lemma X2_ids_unique_witness :
  NoDup (ids (game (dispatch (Keypress key_space) boot))) ∧
  ∀ i, i ∈ ids (game (dispatch (Keypress key_space) boot)) →
       1 ≤ i ≤ count (dispatch (Keypress key_space) boot).
Proof.
  apply (X2_ids_unique (dispatch (Keypress key_space) boot)).
  apply reachable_step, reachable_boot.
Defined.

(** X3: whatever the id counter [c] is, [createEnemies] builds 24 enemies:
    the k-th (k = 0..23) at x = 3 + 3 (k mod 8), y = 1 + 2 (k div 8), with
    the enemy glyph and id c + k + 1; it leaves the counter at c + 24, and
    no two of the enemies are on the same cell. *)
Theorem X3_createEnemies_formation (c : Z) :
  createEnemies c = (formation_enemy c <$> seqZ 0 24, c + 24) ∧
  length (fst (createEnemies c)) = 24%nat ∧
  NoDup ((λ e, (Enemy.x e, Enemy.y e)) <$> fst (createEnemies c)).
Proof.
  rewrite createEnemies_layout. cbn [fst]. split_and!; [done|by rewrite length_fmap|].
  rewrite <-list_fmap_compose. apply (bool_decide_unpack _). by vm_compute.
Qed.

(** X4: no event creates, revives or alters an enemy: after any event the
    enemies are a sub-sequence of the enemies before it, each with the id,
    the row and the glyph it had. *)
Theorem X4_enemies_only_disappear (w : World) (ev : Event) :
  enemy_card <$> enemies (game (dispatch ev w)) `sublist_of` enemy_card <$> enemies (game w).
Proof. apply dispatch_cards_sublist. Qed.

(** X5: in every state of a session each enemy is on row 1, 3 or 5, and
    every enemy and every bullet is strictly above the player's row: nothing
    ever reaches the player. *)
Theorem X5_nothing_reaches_the_player (w : World) :
  reachable w →
  (∀ e, e ∈ enemies (game w) →
     (Enemy.y e = 1 ∨ Enemy.y e = 3 ∨ Enemy.y e = 5) ∧
     Enemy.y e < Pos.y (player (game w))) ∧
  (∀ b, b ∈ bullets (game w) → Bullet.y b < Pos.y (player (game w))).
Proof.
  intros Hw. destruct (reachable_session_inv w Hw) as (_ & _ & Hpy & _ & _ & Hbs).
  split.
  - intros e He. pose proof (reachable_enemy_rows w e Hw He). lia.
  - intros b Hb. destruct (Hbs b Hb). lia.
Qed.

Lemma X5_nothing_reaches_the_player_witness :
  (∀ e, e ∈ enemies (game (dispatch Timer boot)) →
     (Enemy.y e = 1 ∨ Enemy.y e = 3 ∨ Enemy.y e = 5) ∧
     Enemy.y e < Pos.y (player (game (dispatch Timer boot)))) ∧
  (∀ b, b ∈ bullets (game (dispatch Timer boot)) →
     Bullet.y b < Pos.y (player (game (dispatch Timer boot)))).
Proof.
  apply (X5_nothing_reaches_the_player (dispatch Timer boot)).
  apply reachable_step, reachable_boot.
Defined.

(** ** More on the movement engine *)

Section movement.

Implicit Types (g : SpaceInvaders) (b : Bullet.t).

Lemma filter_all {A} (P : A → Prop) `{∀ x, Decision (P x)} (l : list A) :
  (∀ x, P x) → filter P l = l.
Proof.
  intros HP. induction l as [|x l IH]; [done|].
  by rewrite filter_cons, decide_True, IH.
Qed.

Lemma filter_fmap_filter {A} (P Q : A → Prop)
    `{∀ x, Decision (P x)} `{∀ x, Decision (Q x)} (f : A → A) (l : list A) :
  (∀ x, P (f x) → Q x) → filter P (f <$> filter Q l) = filter P (f <$> l).
Proof.
  intros HPQ. induction l as [|x l IH]; [done|].
  rewrite (filter_cons Q). destruct (decide (Q x)) as [HQ|HQ].
  - rewrite !fmap_cons, !filter_cons, IH. done.
  - rewrite fmap_cons, filter_cons, IH, decide_False; [done|]. intros HP. by apply HQ, HPQ.
Qed.

Lemma moved_risen n b : moved (risen n b) = risen (n + 1) b.
Proof. unfold moved, risen, Bullet.set_y. cbn. f_equal. lia. Qed.

Lemma moveBullets_iter g (n : nat) :
  bullets (Nat.iter (S n) moveBullets g)
  = filter (λ b, 0 ≤ Bullet.y b) (risen (Z.of_nat (S n)) <$> bullets g).
Proof.
  induction n as [|n IH].
  - cbn [Nat.iter nat_rect]. rewrite moveBullets_bullets. done.
  - change (Nat.iter (S (S n)) moveBullets g)
      with (moveBullets (Nat.iter (S n) moveBullets g)).
    rewrite moveBullets_bullets, IH.
    rewrite (filter_fmap_filter _ _ moved) by (intros b; cbn; lia).
    rewrite <-list_fmap_compose. f_equal. apply list_fmap_ext. intros _ b _. cbn [compose].
    rewrite moved_risen. f_equal. lia.
Qed.

Lemma moveBullets_no_bullets g : bullets g = [] → moveBullets g = g.
Proof.
  destruct g as [p w h r es d bs]. cbn. intros ->.
  unfold moveBullets, set_bullets, set_enemies. cbn. f_equal.
  apply filter_all. intros e. apply not_elem_of_empty.
Qed.

End movement.

(** X6: after n >= 1 calls of [moveBullets] the bullets are the original
    ones, in order, each n cells higher with x, glyph and id as before,
    except those that would then be above the top row: a bullet at height y
    is gone after y + 1 calls. *)
Theorem X6_bullets_after_n_moves (g : SpaceInvaders) (n : nat) :
  (0 < n)%nat →
  bullets (Nat.iter n moveBullets g)
  = filter (λ b, 0 ≤ Bullet.y b) (risen (Z.of_nat n) <$> bullets g).
Proof. destruct n as [|n]; [lia|]. intros _. apply moveBullets_iter. Qed.

Lemma X6_bullets_after_n_moves_witness :
  bullets (Nat.iter 5 moveBullets g_hit)
  = filter (λ b, 0 ≤ Bullet.y b) (risen (Z.of_nat 5) <$> bullets g_hit).
Proof. apply (X6_bullets_after_n_moves g_hit 5). lia. Defined.

(** X7: with no bullets in flight [moveBullets] changes nothing: no enemy is
    removed and every field of the session is as before. *)
Theorem X7_no_bullets_no_op (g : SpaceInvaders) :
  bullets g = [] → moveBullets g = g.
Proof. apply moveBullets_no_bullets. Qed.

Lemma X7_no_bullets_no_op_witness : moveBullets g_edge = g_edge.
Proof. apply (X7_no_bullets_no_op g_edge). reflexivity. Defined.

(** X8: in every state of a session the formation has a free column ahead
    of it: while the stored direction is Right no enemy is in the last
    column, while it is Left no enemy is in column 0. *)
Theorem X8_free_column_ahead (w : World) :
  reachable w →
  ∀ e, e ∈ enemies (game w) →
    (enemyDirection (game w) = Right → Enemy.x e ≤ width (game w) - 2) ∧
    (enemyDirection (game w) = Left → 1 ≤ Enemy.x e).
Proof.
  intros (Hw & _ & _ & _ & Hes & _)%reachable_session_inv e He.
  destruct (Hes e He) as (_ & _ & HR & HL). rewrite Hw. split; [|done].
  intros Hd. specialize (HR Hd). lia.
Qed.

Lemma X8_free_column_ahead_witness :
  (enemyDirection (game boot) = Right →
     Enemy.x (Enemy.mk 3 1 BoardCharacter.Enemy 1) ≤ width (game boot) - 2) ∧
  (enemyDirection (game boot) = Left → 1 ≤ Enemy.x (Enemy.mk 3 1 BoardCharacter.Enemy 1)).
Proof.
  apply (X8_free_column_ahead boot reachable_boot (Enemy.mk 3 1 BoardCharacter.Enemy 1)).
  vm_compute. apply list_elem_of_here.
Defined.

(** ** The life of the process *)

Section lifecycle.

Implicit Types (w : World) (g : SpaceInvaders) (key : Key) (ev : Event).

(** [render] on a world whose entities are on the board: one block of
    output, nothing else touched. *)
Lemma render_once w :
  onBoard (game w) →
  status (exec render w) = status w ∧ interval (exec render w) = interval w ∧
  count (exec render w) = count w ∧ game (exec render w) = game w ∧
  ∃ full, console (exec render w) = console w ++ rendered (game (exec render w)) full ∧
          shows (height (game (exec render w)) + 2) (width (game (exec render w)) + 2) full
                (framed (game (exec render w))).
Proof.
  intros Hon. destruct (render_shows w Hon) as (full & -> & Hshows).
  split_and!; [done..|]. by exists full.
Qed.

(** While the process is alive the session is running and the timer is
    armed; once it has exited the session is stopped. *)
Lemma lifecycle_dispatch ev w :
  session_inv (game w) →
  interval w = true ∧
    (status w = Alive ∧ isGameRunning (game w) = true
     ∨ status w = Exited 0 ∧ isGameRunning (game w) = false) →
  interval (dispatch ev w) = true ∧
    (status (dispatch ev w) = Alive ∧ isGameRunning (game (dispatch ev w)) = true
     ∨ status (dispatch ev w) = Exited 0 ∧ isGameRunning (game (dispatch ev w)) = false).
Proof.
  intros Hinv [Hint Hst].
  destruct Hst as [[Halive Hrun]|[Hexit Hstop]];
    [|rewrite dispatch_dead by (by rewrite Hexit); auto].
  unfold dispatch. rewrite Halive. destruct ev as [key|].
  - pose proof (session_inv_onKeypress key w Hinv) as Hon.
    apply session_inv_onBoard in Hon. rewrite onKeypress_game in Hon.
    rewrite onKeypress_world. cbv zeta in *.
    destruct (bool_decide (name key = Some "left") && _);
      [|destruct (bool_decide (name key = Some "right") && _);
        [|destruct (bool_decide (name key = Some "q") || _);
          [|destruct (bool_decide (name key = Some "space"))]]].
    + destruct (render_once (mkWorld (count w) _ (console w) (interval w) (status w)) Hon)
        as (-> & -> & _ & -> & _). auto.
    + destruct (render_once (mkWorld (count w) _ (console w) (interval w) (status w)) Hon)
        as (-> & -> & _ & -> & _). auto.
    + auto.
    + destruct (render_once (exec createBullet w) Hon) as (-> & -> & _ & -> & _). auto.
    + destruct (render_once w Hon) as (-> & -> & _ & -> & _). auto.
  - rewrite Hint, gameLoop_world, Hrun.
    assert (onBoard (moveBullets (moveEnemies (game w)))) as Hon
      by by apply session_inv_onBoard, session_inv_moveBullets, session_inv_moveEnemies.
    destruct (render_once (mkWorld (count w) (moveBullets (moveEnemies (game w)))
                (console w) (interval w) (status w)) Hon) as (-> & -> & _ & -> & _).
    cbn [status interval game]. split; [done|]. left. split; [done|].
    destruct (moveBullets_other (moveEnemies (game w))) as (_ & _ & _ & -> & _).
    by destruct (moveEnemies_other (game w)) as (_ & _ & _ & -> & _).
Qed.

Lemma reachable_lifecycle w :
  reachable w →
  interval w = true ∧
    (status w = Alive ∧ isGameRunning (game w) = true
     ∨ status w = Exited 0 ∧ isGameRunning (game w) = false).
Proof.
  induction 1 as [|w ev Hw IH]; [by auto|].
  by apply lifecycle_dispatch; [apply reachable_session_inv|].
Qed.

End lifecycle.

(** X9: a quit key on a live process clears the console, prints the
    farewell and exits with status 0; the board is not rendered again, and
    the player, the enemies, the bullets, the id counter and the timer are
    left as they were. *)
Theorem X9_quit_says_goodbye (w : World) (key : Key) :
  status w = Alive → is_quit key →
  dispatch (Keypress key) w =
    mkWorld (count w) (set_isGameRunning false (game w))
            (console w ++ [Clear; Log "Thanks for playing!"]) (interval w) (Exited 0).
Proof. intros Halive Hq. unfold dispatch. rewrite Halive. by apply quit_exits. Qed.

Lemma X9_quit_says_goodbye_witness :
  dispatch (Keypress key_ctrl_c) boot =
    mkWorld (count boot) (set_isGameRunning false (game boot))
            (console boot ++ [Clear; Log "Thanks for playing!"]) (interval boot) (Exited 0).
Proof.
  apply (X9_quit_says_goodbye boot key_ctrl_c); [reflexivity|right; split; reflexivity].
Defined.

(** X10: no callback of a session ever throws: in every state the process
    is alive or has exited with status 0. *)
Theorem X10_never_throws (w : World) :
  reachable w → status w = Alive ∨ status w = Exited 0.
Proof. intros Hw. destruct (reachable_lifecycle w Hw) as (_ & [[? _]|[? _]]); auto. Qed.

Lemma X10_never_throws_witness :
  status (run [Keypress key_space; Timer; Keypress key_left] boot) = Alive
  ∨ status (run [Keypress key_space; Timer; Keypress key_left] boot) = Exited 0.
Proof.
  apply (X10_never_throws (run [Keypress key_space; Timer; Keypress key_left] boot)).
  apply reachable_step, reachable_step, reachable_step, reachable_boot.
Defined.

(** X11: in every state of a session the timer is still armed (the
    [clearInterval] branch of the game loop is never taken), and the running
    flag is off exactly when the process has exited. *)
Theorem X11_timer_never_cleared (w : World) :
  reachable w →
  interval w = true ∧ (isGameRunning (game w) = false ↔ status w = Exited 0).
Proof.
  intros Hw. destruct (reachable_lifecycle w Hw) as (Hint & [[Hs Hr]|[Hs Hr]]).
  - split; [done|]. rewrite Hs, Hr. done.
  - split; [done|]. rewrite Hs, Hr. done.
Qed.

Lemma X11_timer_never_cleared_witness :
  interval (dispatch (Keypress key_q) boot) = true ∧
  (isGameRunning (game (dispatch (Keypress key_q) boot)) = false
   ↔ status (dispatch (Keypress key_q) boot) = Exited 0).
Proof.
  apply (X11_timer_never_cleared (dispatch (Keypress key_q) boot)).
  apply reachable_step, reachable_boot.
Defined.

(** X12: every key press other than a quit key, on a live session, is
    followed by exactly one rendering of the state it leaves, and the
    process stays alive; a key that is none of left, right, space and quit
    leaves the session and the id counter as they were. *)
Theorem X12_every_key_renders (w : World) (key : Key) :
  reachable w → status w = Alive → ¬ is_quit key →
  status (dispatch (Keypress key) w) = Alive ∧
  (∃ full, console (dispatch (Keypress key) w)
           = console w ++ rendered (game (dispatch (Keypress key) w)) full ∧
           shows (height (game w) + 2) (width (game w) + 2) full
                 (framed (game (dispatch (Keypress key) w)))) ∧
  (name key ≠ Some "left" → name key ≠ Some "right" → name key ≠ Some "space" →
   game (dispatch (Keypress key) w) = game w ∧ count (dispatch (Keypress key) w) = count w).
Proof.
  intros Hw Halive Hq. pose proof (reachable_session_inv w Hw) as Hinv.
  destruct (dispatch_player_y (Keypress key) w) as (_ & Hh & Hwd). rewrite <-Hh, <-Hwd.
  unfold dispatch. rewrite Halive.
  pose proof (session_inv_onKeypress key w Hinv) as Hon.
  apply session_inv_onBoard in Hon. rewrite onKeypress_game in Hon.
  rewrite onKeypress_world. cbv zeta in *.
  assert (bool_decide (name key = Some "q")
          || ctrl key && bool_decide (name key = Some "c") = false) as Hq'
    by (apply not_true_is_false; by rewrite quit_decide).
  destruct (bool_decide (name key = Some "left") && _) eqn:Hl;
    [|destruct (bool_decide (name key = Some "right") && _) eqn:Hr;
      [|rewrite Hq' in *; destruct (bool_decide (name key = Some "space")) eqn:Hs]].
  - destruct (render_once (mkWorld (count w) _ (console w) (interval w) (status w)) Hon)
      as (-> & _ & _ & Hg & full & -> & Hsh). split_and!.
    + done.
    + by exists full.
    + intros Hne. apply andb_true_iff in Hl as [Hl%bool_decide_eq_true _]. done.
  - destruct (render_once (mkWorld (count w) _ (console w) (interval w) (status w)) Hon)
      as (-> & _ & _ & Hg & full & -> & Hsh). split_and!.
    + done.
    + by exists full.
    + intros _ Hne. apply andb_true_iff in Hr as [Hr%bool_decide_eq_true _]. done.
  - destruct (render_once (exec createBullet w) Hon) as (-> & _ & _ & Hg & full & -> & Hsh).
    split_and!.
    + done.
    + by exists full.
    + intros _ _ Hne. by apply bool_decide_eq_true in Hs.
  - destruct (render_once w Hon) as (-> & _ & -> & -> & full & -> & Hsh). split_and!.
    + done.
    + by exists full.
    + done.
Qed.

Lemma X12_every_key_renders_witness :
  status (dispatch (Keypress key_space) boot) = Alive ∧
  (∃ full, console (dispatch (Keypress key_space) boot)
           = console boot ++ rendered (game (dispatch (Keypress key_space) boot)) full ∧
           shows (height (game boot) + 2) (width (game boot) + 2) full
                 (framed (game (dispatch (Keypress key_space) boot)))) ∧
  (name key_space ≠ Some "left" → name key_space ≠ Some "right" →
   name key_space ≠ Some "space" →
   game (dispatch (Keypress key_space) boot) = game boot ∧
   count (dispatch (Keypress key_space) boot) = count boot).
Proof.
  apply (X12_every_key_renders boot key_space);
    [apply reachable_boot|reflexivity|intros [Hq|[Hc _]]; discriminate].
Defined.

(** X13: a timer tick on a live session moves the enemies, then the
    bullets, renders the result exactly once, and leaves the id counter, the
    timer and the process status alone. *)
Theorem X13_tick_moves_then_renders (w : World) :
  reachable w → status w = Alive →
  ∃ full,
    dispatch Timer w =
      mkWorld (count w) (moveBullets (moveEnemies (game w)))
              (console w ++ rendered (moveBullets (moveEnemies (game w))) full)
              true Alive ∧
    shows (height (game w) + 2) (width (game w) + 2) full
          (framed (moveBullets (moveEnemies (game w)))).
Proof.
  intros Hw Halive. pose proof (reachable_session_inv w Hw) as Hinv.
  destruct (reachable_lifecycle w Hw) as (Hint & [[_ Hrun]|[Hex _]]); [|congruence].
  unfold dispatch. rewrite Halive, Hint, gameLoop_world, Hrun.
  assert (onBoard (moveBullets (moveEnemies (game w)))) as Hon
    by by apply session_inv_onBoard, session_inv_moveBullets, session_inv_moveEnemies.
  destruct (render_shows (mkWorld (count w) (moveBullets (moveEnemies (game w)))
              (console w) (interval w) (status w)) Hon) as (full & -> & Hsh).
  exists full. cbn [count game console interval status] in *. rewrite Hint, Halive.
  split; [done|].
  destruct (moveBullets_other (moveEnemies (game w))) as (_ & Hw1 & Hh1 & _).
  destruct (moveEnemies_other (game w)) as (_ & Hw2 & Hh2 & _).
  by rewrite <-Hw2, <-Hh2, <-Hw1, <-Hh1.
Qed.

Lemma X13_tick_moves_then_renders_witness :
  ∃ full,
    dispatch Timer boot =
      mkWorld (count boot) (moveBullets (moveEnemies (game boot)))
              (console boot ++ rendered (moveBullets (moveEnemies (game boot))) full)
              true Alive ∧
    shows (height (game boot) + 2) (width (game boot) + 2) full
          (framed (moveBullets (moveEnemies (game boot)))).
Proof.
  apply (X13_tick_moves_then_renders boot); [apply reachable_boot|reflexivity].
Defined.

(** ** What [render] prints, and when it throws *)

Section screen.

Implicit Types (w : World) (g : SpaceInvaders) (board : Board).

Lemma put_length board i j v board' :
  put board i j v = Some board' → length board' = length board.
Proof.
  unfold put. destruct (JS.get board i) as [row|] eqn:Hrow; [|done].
  intros [= <-]. destruct (get_in_range _ _ _ Hrow). by apply length_set.
Qed.

Lemma put_off_rows board i j v :
  ¬ (0 ≤ i < Z.of_nat (length board)) → put board i j v = None.
Proof.
  intros Hi. unfold put. destruct (JS.get board i) as [row|] eqn:Hrow; [|done].
  destruct (get_in_range _ _ _ Hrow). lia.
Qed.

Lemma blank_length H W bg board :
  blank H W bg = Some board → 0 ≤ H ∧ length board = Z.to_nat H.
Proof.
  unfold blank. destruct (JS.Array_fill H "") as [rows|] eqn:Hrows; [|done].
  cbn [mbind option_bind]. unfold JS.Array_fill in Hrows.
  destruct (bool_decide (0 ≤ H)) eqn:HH; [|done]. apply bool_decide_eq_true in HH.
  injection Hrows as <-. unfold JS.map. intros Hmap%length_mapM.
  by rewrite length_replicate in Hmap.
Qed.

Lemma forEach_None {X St} (xs : list X) (body : X → St → option St) :
  foldl (λ acc a, acc ≫= body a) None xs = None.
Proof. by induction xs. Qed.

Lemma forEach_step {X St} (x : X) (xs : list X) (body : X → St → option St) s :
  forEach (x :: xs) body s = body x s ≫= forEach xs body.
Proof. unfold forEach. cbn. destruct (body x s); [done|]. apply forEach_None. Qed.

(** Drawing entities never changes the number of rows, and throws as soon
    as one of them is on no row. *)
Lemma forEach_put_rows {X : Type} {HX : HasXY X} (ch : X → string) (xs : list X) board :
  match forEach xs (λ a board, put board (getY a) (getX a) (Some (ch a))) board with
  | Some board' =>
      length board' = length board ∧
      ∀ a, a ∈ xs → 0 ≤ getY a < Z.of_nat (length board)
  | None => True
  end.
Proof.
  revert board. induction xs as [|a xs IH]; intros board.
  - cbn. split; [done|]. intros a Ha. by apply elem_of_nil in Ha.
  - rewrite forEach_step.
    destruct (put board (getY a) (getX a) (Some (ch a))) as [b1|] eqn:Hput; [|done].
    cbn [mbind option_bind]. specialize (IH b1).
    destruct (forEach xs _ b1) as [b2|]; [|done].
    destruct IH as [Hlen Hin]. rewrite (put_length _ _ _ _ _ Hput) in Hlen, Hin.
    split; [done|]. intros a' [->|Ha']%elem_of_cons; [|by apply Hin].
    destruct (decide (0 ≤ getY a < Z.of_nat (length board))) as [|Hoff]; [done|].
    by rewrite (put_off_rows _ _ _ _ Hoff) in Hput.
Qed.

Lemma drawBaseBoard_off_rows g : off_rows g → drawBaseBoard g = None.
Proof.
  intros Hoff. unfold drawBaseBoard, createBaseBoard, renderEnemies, renderBullets.
  destruct (blank _ _ _) as [b0|] eqn:Hb0; [|done]. cbn [mbind option_bind].
  apply blank_length in Hb0 as [Hh Hlen0].
  pose proof (forEach_put_rows (HX:=Enemy.hasXY) Enemy.character (enemies g) b0) as He.
  cbn [getX getY Enemy.hasXY] in He. destruct (forEach (enemies g) _ b0) as [b1|]; [|done].
  cbn [mbind option_bind]. destruct He as [Hlen1 He].
  pose proof (forEach_put_rows (HX:=Bullet.hasXY) Bullet.character (bullets g) b1) as Hb.
  cbn [getX getY Bullet.hasXY] in Hb. destruct (forEach (bullets g) _ b1) as [b2|]; [|done].
  cbn [mbind option_bind]. destruct Hb as [Hlen2 Hb].
  apply put_off_rows. rewrite Hlen2, Hlen1, Hlen0, Z2Nat.id by done.
  destruct Hoff as [(e & Hin & Hy)|[(b & Hin & Hy)|Hy]]; [| |done].
  - apply He in Hin. rewrite Hlen0, Z2Nat.id in Hin by done. done.
  - apply Hb in Hin. rewrite Hlen1, Hlen0, Z2Nat.id in Hin by done. done.
Qed.

Lemma render_off_rows w :
  off_rows (game w) →
  exec render w = mkWorld (count w) (game w) (console w ++ [Clear]) (interval w) Crashed.
Proof.
  intros Hoff. unfold render. rewrite exec_bind. cbv beta iota delta [write].
  rewrite exec_bind. cbv beta iota delta [this]. cbn [game].
  rewrite exec_bind, (drawBaseBoard_off_rows _ Hoff). done.
Qed.

Lemma length_append s t : JS.length (s +:+ t) = (JS.length s + JS.length t)%nat.
Proof.
  induction s as [|c s IH]; [done|].
  change (String c s +:+ t) with (String c (s +:+ t)). cbn [JS.length]. rewrite IH. lia.
Qed.

Lemma length_concat (cells : list string) :
  (∀ c, c ∈ cells → JS.length c = 1%nat) →
  JS.length (String.concat "" cells) = length cells.
Proof.
  induction cells as [|c cells IH]; intros Hone; [done|].
  assert (JS.length (String.concat "" cells) = length cells) as IH'
    by (apply IH; intros c' Hc'; apply Hone; by right).
  destruct cells as [|c' cells].
  - cbn. apply Hone. by left.
  - change (String.concat "" (c :: c' :: cells))
      with (c +:+ "" +:+ String.concat "" (c' :: cells)).
    rewrite !length_append, IH', (Hone c) by by left. done.
Qed.



End screen.

(** X14: when some entity has a y that is no row of the board, [render]
    throws before printing the board: the console has been cleared, nothing
    more is printed, the process is dead, and the session is untouched. *)
Theorem X14_render_throws_off_rows (w : World) :
  off_rows (game w) →
  exec render w = mkWorld (count w) (game w) (console w ++ [Clear]) (interval w) Crashed.
Proof. apply render_off_rows. Qed.

Lemma X14_render_throws_off_rows_witness :
  exec render (mkWorld 25 g_above [] true Alive)
  = mkWorld 25 g_above ([] ++ [Clear]) true Crashed.
Proof.
  apply (X14_render_throws_off_rows (mkWorld 25 g_above [] true Alive)).
  right. left. exists (Bullet.mk 5 (-1) BoardCharacter.Bullet 25).
  split; [apply list_elem_of_here|cbn; lia].
Defined.

(** X15: with every entity on the board, [render] prints, after clearing
    the console and logging the player, one text: the [height + 2] lines of
    the framed board joined by newlines, and then the controls line; when
    every glyph is one character each board line is [width + 2] characters
    long. *)
Theorem X15_render_prints_the_board (w : World) :
  onBoard (game w) →
  console (exec render w)
  = console w ++ [Clear; Debug (player (game w)); Log (screen_text (game w));
                  Log (newline +:+ "Controls: ←/→ to move, Q to quit")] ∧
  (single_glyphs (game w) →
   ∀ i, JS.length (screen_line (game w) i) = Z.to_nat (width (game w) + 2)).
Proof.
  intros Hon. destruct (render_shows w Hon) as (full & -> & Hshows). split.
  - cbn [console]. unfold rendered. by rewrite (boardText_shows _ _ _ _ Hshows).
  - intros Hglyphs i. unfold screen_line. rewrite length_concat.
    + by rewrite length_fmap, length_seqZ.
    + intros c (j & -> & _)%list_elem_of_fmap. by apply framed_single.
Qed.

Lemma X15_render_prints_the_board_witness :
  console (exec render (mkWorld 25 g_hit [] true Alive))
  = [] ++ [Clear; Debug (player g_hit); Log (screen_text g_hit);
           Log (newline +:+ "Controls: ←/→ to move, Q to quit")] ∧
  (single_glyphs g_hit →
   ∀ i, JS.length (screen_line g_hit i) = Z.to_nat (width g_hit + 2)).
Proof.
  apply (X15_render_prints_the_board (mkWorld 25 g_hit [] true Alive)).
  unfold onBoard, inside. cbn. split_and!; try lia.
  - intros e He. apply list_elem_of_singleton in He as ->. cbn. lia.
  - intros b Hb. apply list_elem_of_singleton in Hb as ->. cbn. lia.
Defined.



(** X17: the collision rule of a whole tick ([moveEnemies], then
    [moveBullets]): an enemy is there after the tick exactly when it was
    there before, now one step further in the direction stored before the
    tick, and no bullet ends the tick on the cell the enemy ends the tick
    on. *)
Theorem X17_tick_collision_rule (g : SpaceInvaders) (e' : Enemy.t) :
  e' ∈ enemies (moveBullets (moveEnemies g)) ↔
  ∃ e, e ∈ enemies g ∧
       e' = Enemy.set_x (Enemy.x e + step_of (enemyDirection g)) e ∧
       ∀ b, b ∈ bullets g →
            ¬ (Bullet.x b = Enemy.x e + step_of (enemyDirection g) ∧
               Bullet.y b - 1 = Enemy.y e).
Proof.
  rewrite moveBullets_enemies, moveEnemies_enemies.
  destruct (moveEnemies_other g) as (_ & _ & _ & _ & ->). unfold shifted.
  rewrite list_elem_of_fmap. split.
  - intros [(e & -> & He) Hno]. exists e. split_and!; [done..|].
    intros b Hb [Hx Hy]. apply (Hno b Hb). apply getCoordinate_inj. cbn. by rewrite Hx, Hy.
  - intros (e & He & -> & Hno). split; [by exists e|].
    intros b Hb Heq%getCoordinate_inj. cbn in Heq. destruct Heq as [Hx Hy].
    apply (Hno b Hb). by rewrite Hx, Hy.
Qed.

(** X18: [createFullBoard] frames any full [height] x [width] board it is
    given, whatever the cells hold: it does not throw, and the result has
    [height + 2] rows of [width + 2] cells, the frame glyphs around the
    cells of the given board. *)
Theorem X18_createFullBoard_frames (g : SpaceInvaders) (base : Board)
    (inner : Z → Z → string) :
  0 ≤ height g → 0 ≤ width g →
  shows (height g) (width g) base inner →
  ∃ full, createFullBoard g base = Some full ∧
          shows (height g + 2) (width g + 2) full (frame_of (height g) (width g) inner).
Proof. apply createFullBoard_shows. Qed.

Lemma X18_createFullBoard_frames_witness :
  ∃ full, createFullBoard g_tiny board_a = Some full ∧
          shows (1 + 2) (1 + 2) full (frame_of 1 1 (λ _ _, "a")).
Proof.
  apply (X18_createFullBoard_frames g_tiny board_a (λ _ _, "a")); [cbn; lia..|].
  split; [reflexivity|]. intros i Hi. cbn in Hi. assert (i = 0) as -> by lia.
  exists [Some "a"]. split_and!; [reflexivity..|].
  intros j Hj. cbn in Hj. assert (j = 0) as -> by lia. reflexivity.
Defined.
